(** * Weighted-pool pricing and arbitrage sizing of the seesaw package

    Shallow embedding of [packages/seesaw/src/pools/weightedPool/weightedMath.ts]
    and [packages/seesaw/src/arbOpp.ts].

    Values of decimal.js are modelled by [dec]: a finite value is a real
    number, besides +Infinity, -Infinity and NaN, which decimal.js produces
    on division by zero and on the special cases of [pow].  The sign of a
    zero is not tracked: -0 is identified with 0.  The operations [dec_*]
    compute exactly; decimal.js rounds each result to 20 significant digits,
    and the operations [rdec_*] built on [round20] below do so too, for the
    properties that depend on that rounding. *)

From Stdlib Require Import Reals Lra Lia ZArith String List Ascii Bool.
Import ListNotations.

Open Scope R_scope.

(** ** Decimal values *)

Inductive dec : Type :=
  | Fin : R -> dec
  | PInf : dec
  | NInf : dec
  | NaN : dec.

Definition Req_b (a b : R) : bool := if Req_dec_T a b then true else false.
Definition Rlt_b (a b : R) : bool := if Rlt_dec a b then true else false.

(** [y] is an integer. *)
Definition is_int (y : R) : bool := Req_b (IZR (Int_part y)) y.

(** An infinity with the sign of [a] (for [a <> 0]). *)
Definition inf_of_sign (a : R) : dec := if Rlt_b 0 a then PInf else NInf.

Definition dec_neg (x : dec) : dec :=
  match x with
  | Fin a => Fin (- a)
  | PInf => NInf
  | NInf => PInf
  | NaN => NaN
  end.

(** [Decimal.prototype.plus] / [add]. *)
Definition dec_add (x y : dec) : dec :=
  match x, y with
  | Fin a, Fin b => Fin (a + b)
  | NaN, _ | _, NaN => NaN
  | PInf, NInf | NInf, PInf => NaN
  | PInf, _ | _, PInf => PInf
  | NInf, _ | _, NInf => NInf
  end.

(** [Decimal.prototype.minus] / [sub]. *)
Definition dec_sub (x y : dec) : dec := dec_add x (dec_neg y).

(** [Decimal.prototype.times] / [mul]. *)
Definition dec_mul (x y : dec) : dec :=
  match x, y with
  | Fin a, Fin b => Fin (a * b)
  | NaN, _ | _, NaN => NaN
  | Fin a, PInf | PInf, Fin a =>
      if Req_b a 0 then NaN else inf_of_sign a
  | Fin a, NInf | NInf, Fin a =>
      if Req_b a 0 then NaN else inf_of_sign (- a)
  | PInf, PInf | NInf, NInf => PInf
  | PInf, NInf | NInf, PInf => NInf
  end.

(** [Decimal.prototype.div]: no exception on a zero divisor. *)
Definition dec_div (x y : dec) : dec :=
  match x, y with
  | Fin a, Fin b =>
      if Req_b b 0 then (if Req_b a 0 then NaN else inf_of_sign a)
      else Fin (a / b)
  | NaN, _ | _, NaN => NaN
  | Fin _, PInf | Fin _, NInf => Fin 0
  | PInf, Fin b => if Rlt_b b 0 then NInf else PInf
  | NInf, Fin b => if Rlt_b b 0 then PInf else NInf
  | _, _ => NaN
  end.

(** [Math.pow] of JavaScript, which decimal.js calls when the base or the
    exponent is zero or not finite. *)
Definition math_pow (x y : dec) : dec :=
  match y with
  | NaN => NaN
  | Fin b =>
      if Req_b b 0 then Fin 1 else
      match x with
      | NaN => NaN
      | PInf => if Rlt_b 0 b then PInf else Fin 0
      | NInf =>
          if Rlt_b 0 b then
            (if is_int b && Z.odd (Int_part b) then NInf else PInf)
          else Fin 0
      | Fin a =>
          if Req_b a 0 then (if Rlt_b 0 b then Fin 0 else PInf)
          else Fin (Rpower a b)
      end
  | PInf =>
      match x with
      | NaN => NaN
      | Fin a =>
          if Rlt_b 1 (Rabs a) then PInf
          else if Req_b (Rabs a) 1 then NaN else Fin 0
      | _ => PInf
      end
  | NInf =>
      match x with
      | NaN => NaN
      | Fin a =>
          if Rlt_b 1 (Rabs a) then Fin 0
          else if Req_b (Rabs a) 1 then NaN else PInf
      | _ => Fin 0
      end
  end.

(** [Decimal.prototype.pow]: special values go to [Math.pow]; a base of 1
    gives 1, an exponent of 1 gives the base, an integer exponent is done by
    repeated squaring, a negative base with a non-integer exponent gives NaN,
    and otherwise [exp (y * ln x)]. *)
Definition dec_pow (x y : dec) : dec :=
  match x, y with
  | Fin a, Fin b =>
      if Req_b a 0 || Req_b b 0 then math_pow x y
      else if Req_b a 1 then Fin 1
      else if Req_b b 1 then Fin a
      else if is_int b then Fin (powerRZ a (Int_part b))
      else if Rlt_b a 0 then NaN
      else Fin (Rpower a b)
  | _, _ => math_pow x y
  end.

Definition ONE : dec := Fin 1.
Definition NEGATIVE_ONE : dec := Fin (-1).

(** ** Pool pair data ([WeightedPoolPairData]) *)

Record WeightedPoolPairData : Type := mkPairData {
  pd_id : string;
  pd_address : string;
  swapFee : dec;
  tokenIn : option string;
  decimalsIn : Z;
  balanceIn : dec;
  weightIn : dec;
  tokenOut : option string;
  balanceOut : dec;
  decimalsOut : Z;
  weightOut : dec
}.

(** ** weightedMath.ts *)

(** [_exactTokenInForTokenOut]:
    [Bo.mul(ONE.minus((Bi.div(Bi.plus(Ai.mul(ONE.sub(f))))).pow(wi.div(wo))))]. *)
Definition _exactTokenInForTokenOut (amount : dec) (p : WeightedPoolPairData) : dec :=
  let Bi := balanceIn p in
  let Bo := balanceOut p in
  let wi := weightIn p in
  let wo := weightOut p in
  let Ai := amount in
  let f := swapFee p in
  dec_mul Bo
    (dec_sub ONE
       (dec_pow (dec_div Bi (dec_add Bi (dec_mul Ai (dec_sub ONE f))))
                (dec_div wi wo))).

(** [_tokenInForExactTokenOut]:
    [Bi.mul((NEGATIVE_ONE.plus((Bo.div(Bo.sub(Ao))).pow(wo.div(wi)))).div(NEGATIVE_ONE.sub(f)))]. *)
Definition _tokenInForExactTokenOut (amount : dec) (p : WeightedPoolPairData) : dec :=
  let Bi := balanceIn p in
  let Bo := balanceOut p in
  let wi := weightIn p in
  let wo := weightOut p in
  let Ao := amount in
  let f := swapFee p in
  dec_mul Bi
    (dec_div
       (dec_add NEGATIVE_ONE (dec_pow (dec_div Bo (dec_sub Bo Ao)) (dec_div wo wi)))
       (dec_sub NEGATIVE_ONE f)).

(** [_spotPriceAfterSwapExactTokenInForTokenOut]: the method chain
    [Bo.mul(f.sub(ONE)).mul(Bi.div(...)).pow((wi+wo)/wo).mul(wi)] raises the
    whole product [Bo * (f - 1) * (Bi / ...)] to the power. *)
Definition _spotPriceAfterSwapExactTokenInForTokenOut (amount : dec) (p : WeightedPoolPairData) : dec :=
  let Bi := balanceIn p in
  let Bo := balanceOut p in
  let wi := weightIn p in
  let wo := weightOut p in
  let Ai := amount in
  let f := swapFee p in
  dec_mul NEGATIVE_ONE
    (dec_div (dec_mul Bi wo)
       (dec_mul
          (dec_pow
             (dec_mul (dec_mul Bo (dec_sub f ONE))
                      (dec_div Bi (dec_sub (dec_add Ai Bi) (dec_mul Ai f))))
             (dec_div (dec_add wi wo) wo))
          wi)).

(** [_spotPriceAfterSwapTokenInForExactTokenOut]:
    [NEGATIVE_ONE.mul((Bi.mul(Bo.div(Bo.sub(Ao))).pow((wi+wo)/wi).mul(wo)).div(Bo.mul(f.sub(ONE)).mul(wi)))]. *)
Definition _spotPriceAfterSwapTokenInForExactTokenOut (amount : dec) (p : WeightedPoolPairData) : dec :=
  let Bi := balanceIn p in
  let Bo := balanceOut p in
  let wi := weightIn p in
  let wo := weightOut p in
  let Ao := amount in
  let f := swapFee p in
  dec_mul NEGATIVE_ONE
    (dec_div
       (dec_mul (dec_pow (dec_mul Bi (dec_div Bo (dec_sub Bo Ao)))
                         (dec_div (dec_add wi wo) wi))
                wo)
       (dec_mul (dec_mul Bo (dec_sub f ONE)) wi)).

(** [_derivativeSpotPriceAfterSwapExactTokenInForTokenOut]:
    [(wi.plus(wo)).div(Bo.mul(Bi.div(Ai.plus(Bi).sub(Ai.mul(f))).pow(wi.div(wo)).mul(wi)))]. *)
Definition _derivativeSpotPriceAfterSwapExactTokenInForTokenOut (amount : dec) (p : WeightedPoolPairData) : dec :=
  let Bi := balanceIn p in
  let Bo := balanceOut p in
  let wi := weightIn p in
  let wo := weightOut p in
  let Ai := amount in
  let f := swapFee p in
  dec_div (dec_add wi wo)
    (dec_mul Bo
       (dec_mul (dec_pow (dec_div Bi (dec_sub (dec_add Ai Bi) (dec_mul Ai f)))
                         (dec_div wi wo))
                wi)).

(** [_derivativeSpotPriceAfterSwapTokenInForExactTokenOut]:
    [NEGATIVE_ONE.mul(Bi.mul((Bo/(Bo-Ao)).pow(wo/wi)).mul(wo*(wi+wo))
       .div((Ao-Bo).pow(2).mul(f-ONE).mul(wi.pow(2))))]. *)
Definition _derivativeSpotPriceAfterSwapTokenInForExactTokenOut (amount : dec) (p : WeightedPoolPairData) : dec :=
  let Bi := balanceIn p in
  let Bo := balanceOut p in
  let wi := weightIn p in
  let wo := weightOut p in
  let Ao := amount in
  let f := swapFee p in
  dec_mul NEGATIVE_ONE
    (dec_div
       (dec_mul (dec_mul Bi (dec_pow (dec_div Bo (dec_sub Bo Ao)) (dec_div wo wi)))
                (dec_mul wo (dec_add wi wo)))
       (dec_mul (dec_mul (dec_pow (dec_sub Ao Bo) (Fin 2)) (dec_sub f ONE))
                (dec_pow wi (Fin 2)))).

(** ** Exceptions *)

(** A computation that returns a value or throws an error with a message. *)
Inductive result (A : Type) : Type :=
  | Ok : A -> result A
  | Throw : string -> result A.
Arguments Ok {A} _.
Arguments Throw {A} _.

Definition bind {A B : Type} (c : result A) (k : A -> result B) : result B :=
  match c with
  | Ok a => k a
  | Throw m => Throw m
  end.

Notation "x <- c ;; k" := (bind c (fun x => k))
  (at level 61, c at next level, right associativity).

(** [x.add(y)] where [y] may be [undefined]: decimal.js builds
    [new Decimal(undefined)], which throws. *)
Definition dec_add_js (x : dec) (y : option dec) : result dec :=
  match y with
  | Some d => Ok (dec_add x d)
  | None => Throw "[DecimalError] Invalid argument: undefined"
  end.

(** ** arbOpp.ts: spot price and solver *)

Definition getSpotPrice (pairData : WeightedPoolPairData) : dec :=
  let swapFeeComplement := dec_sub (Fin 1) (swapFee pairData) in
  let balanceOverWeightIn := dec_div (balanceIn pairData) (weightIn pairData) in
  let balanceOverWeightOut := dec_div (balanceOut pairData) (weightOut pairData) in
  dec_div (dec_div balanceOverWeightOut balanceOverWeightIn) swapFeeComplement.

Definition getAmountInForSpotPriceAfterSwapNoFees
    (pairData : WeightedPoolPairData) (desiredSpotPrice : dec) : dec :=
  let spotPrice := getSpotPrice pairData in
  let exponent :=
    dec_sub (dec_div (weightOut pairData) (dec_add (weightIn pairData) (weightOut pairData)))
            (Fin 1) in
  dec_mul (balanceIn pairData)
    (dec_sub (dec_pow (dec_div desiredSpotPrice spotPrice) exponent) ONE).

(** [getExtraAmountIn]: the line break after [return] makes automatic
    semicolon insertion read [return;], so the function returns [undefined]
    ([None]) and the expression below it is never evaluated. *)
Definition getExtraAmountIn (p : WeightedPoolPairData)
    (currentSpotPrice amountIn desiredSpotPrice : dec) : option dec :=
  None.

(** A JavaScript loop counter: [None] is [undefined] (or the [NaN] that
    [undefined++] produces). *)
Definition js_lt (i : option Z) (n : Z) : bool :=
  match i with
  | Some k => (k <? n)%Z
  | None => false
  end.

Definition js_incr (i : option Z) : option Z := option_map Z.succ i.

(** The [for (let i; i < numIterations; i++)] loop of
    [getAmountInForSpotPrice]; [fuel] bounds the number of rounds. *)
Fixpoint refine_loop (fuel : nat) (pair : WeightedPoolPairData)
    (desiredSpotPrice : dec) (numIterations : Z) (i : option Z)
    (amountIn spotPriceAfter : dec) : result dec :=
  match fuel with
  | O => Ok amountIn
  | S fuel' =>
      if js_lt i numIterations then
        let extraAmountIn := getExtraAmountIn pair spotPriceAfter amountIn desiredSpotPrice in
        amountIn' <- dec_add_js amountIn extraAmountIn ;;
        let spotPriceAfter' := _spotPriceAfterSwapTokenInForExactTokenOut amountIn' pair in
        refine_loop fuel' pair desiredSpotPrice numIterations (js_incr i) amountIn' spotPriceAfter'
      else Ok amountIn
  end.

(** [getAmountInForSpotPrice]: [let i;] leaves the counter [undefined]. *)
Definition getAmountInForSpotPrice (pair : WeightedPoolPairData)
    (desiredSpotPrice : dec) (numIterations : Z) : result dec :=
  let amountIn := getAmountInForSpotPriceAfterSwapNoFees pair desiredSpotPrice in
  let spotPriceAfter := _spotPriceAfterSwapTokenInForExactTokenOut amountIn pair in
  refine_loop (S (Z.to_nat numIterations)) pair desiredSpotPrice numIterations None
    amountIn spotPriceAfter.

(** ** String form of a Decimal and the [>] operator on two Decimals

    [desiredSpotPrice > spotPrice] compares two objects: JavaScript converts
    each with [valueOf], which for decimal.js returns a string, and then
    compares the two strings code unit by code unit. *)

Local Open Scope string_scope.

(** Decimal exponent of [r > 0]: [10^e <= r < 10^(e+1)]. *)
Definition dexp (r : R) : Z := Int_part (ln r / ln 10).

(** Coefficient of [r > 0] on 20 significant digits (half up) and its
    exponent, as decimal.js holds it at its default precision. *)
Definition dnorm (r : R) : Z * Z :=
  let e := dexp r in
  let c := Int_part (r * powerRZ 10 (19 - e) + / 2) in
  if (10 ^ 20 <=? c)%Z then ((c / 10)%Z, (e + 1)%Z) else (c, e).

Fixpoint strip_zeros (fuel : nat) (n : Z) : Z :=
  match fuel with
  | O => n
  | S f => if (0 <? n)%Z && (n mod 10 =? 0)%Z then strip_zeros f (n / 10) else n
  end.

Definition digit_char (d : Z) : ascii := ascii_of_nat (48 + Z.to_nat d).

Fixpoint digits_aux (fuel : nat) (n : Z) (acc : string) : string :=
  match fuel with
  | O => acc
  | S f =>
      if (n <? 10)%Z then String (digit_char n) acc
      else digits_aux f (n / 10) (String (digit_char (n mod 10)) acc)
  end.

(** Decimal digits of [n >= 0]. *)
Definition digits_of (n : Z) : string := digits_aux 64 n EmptyString.

Definition int_to_string (e : Z) : string :=
  if (e <? 0)%Z then "-" ++ digits_of (- e) else digits_of e.

Fixpoint zeros (n : nat) : string :=
  match n with
  | O => EmptyString
  | S k => String "0" (zeros k)
  end.

(** decimal.js [finiteToString] of the digit string [str] with exponent [e],
    exponential notation for [e <= toExpNeg = -7] or [e >= toExpPos = 21]. *)
Definition finiteToString (str : string) (e : Z) : string :=
  let len := Z.of_nat (String.length str) in
  if (e <=? -7)%Z || (21 <=? e)%Z then
    let s := match str with
             | String c rest => if (1 <? len)%Z then String c (String "." rest) else str
             | EmptyString => str
             end in
    s ++ (if (e <? 0)%Z then "e" else "e+") ++ int_to_string e
  else if (e <? 0)%Z then "0." ++ zeros (Z.to_nat (- e - 1)) ++ str
  else if (len <=? e)%Z then str ++ zeros (Z.to_nat (e + 1 - len))
  else if (e + 1 <? len)%Z then
    substring 0 (Z.to_nat (e + 1)) str ++ "." ++
    substring (Z.to_nat (e + 1)) (Z.to_nat (len - (e + 1))) str
  else str.

(** [Decimal.prototype.valueOf]. *)
Definition dec_valueOf (x : dec) : string :=
  match x with
  | NaN => "NaN"
  | PInf => "Infinity"
  | NInf => "-Infinity"
  | Fin a =>
      if Req_b a 0 then "0" else
      let '(c, e) := dnorm (Rabs a) in
      let s := finiteToString (digits_of (strip_zeros 64 c)) e in
      if Rlt_b a 0 then "-" ++ s else s
  end.

(** [x > y] on two Decimal objects: [valueOf(y) < valueOf(x)] as strings. *)
Definition js_gt_dec (x y : dec) : bool :=
  match String.compare (dec_valueOf y) (dec_valueOf x) with
  | Lt => true
  | _ => false
  end.

(** The string is empty or its first code unit is below that of "N". *)
Definition starts_below_N (s : string) : Prop :=
  match s with
  | EmptyString => True
  | String c _ => Ascii.compare c "N"%char = Lt
  end.

Local Close Scope string_scope.

(** ** Rounding to the precision of decimal.js

    Each arithmetic method of decimal.js ([plus], [minus], [times], [div],
    [pow]) rounds its result to [precision = 20] significant digits with
    [rounding = ROUND_HALF_UP] (half away from zero); the constructor keeps
    every digit it is given.  [round20] is that rounding on a real: [dnorm]
    gives the 20-digit coefficient and the exponent of [|r|].  The [rdec_*]
    operations round the finite result of the exact operations above ([pow]
    taken as correctly rounded). *)

Definition round20 (r : R) : R :=
  if Req_b r 0 then 0 else
  let '(c, e) := dnorm (Rabs r) in
  (if Rlt_b r 0 then -1 else 1) * (IZR c * powerRZ 10 (e - 19)).

Definition rnd (x : dec) : dec :=
  match x with
  | Fin a => Fin (round20 a)
  | _ => x
  end.

Definition rdec_add (x y : dec) : dec := rnd (dec_add x y).
Definition rdec_sub (x y : dec) : dec := rnd (dec_sub x y).
Definition rdec_mul (x y : dec) : dec := rnd (dec_mul x y).
Definition rdec_div (x y : dec) : dec := rnd (dec_div x y).
Definition rdec_pow (x y : dec) : dec := rnd (dec_pow x y).

(** [_exactTokenInForTokenOut] with each Decimal operation rounded:
    [Bo.mul(ONE.minus((Bi.div(Bi.plus(Ai.mul(ONE.sub(f))))).pow(wi.div(wo))))]. *)
Definition _exactTokenInForTokenOut_rounded (amount : dec) (p : WeightedPoolPairData) : dec :=
  let Bi := balanceIn p in
  let Bo := balanceOut p in
  let wi := weightIn p in
  let wo := weightOut p in
  let Ai := amount in
  let f := swapFee p in
  rdec_mul Bo
    (rdec_sub ONE
       (rdec_pow (rdec_div Bi (rdec_add Bi (rdec_mul Ai (rdec_sub ONE f))))
                 (rdec_div wi wo))).

(** ** arbOpp.ts: pool pair data and the arbitrage step *)

(** [PoolState] (types.ts); BigNumbers as [Z]. *)
Record PoolState : Type := mkPoolState {
  ps_id : string;
  ps_address : string;
  ps_tokens : list string;
  ps_swapFee : Z;
  ps_weights : list Z;
  ps_balances : list Z
}.

(** [BatchSwapStep] of balancer-js. *)
Record BatchSwapStep : Type := mkBatchSwapStep {
  poolId : string;
  assetInIndex : Z;
  assetOutIndex : Z;
  amount : Z;
  userData : string
}.

(** [marketPrices[key]] on a [{ [key: string]: number }] object, numbers as
    [dec]; an [undefined] key reads the property ["undefined"] and a missing
    property is [undefined], which division turns into [NaN]. *)
Definition market_lookup (marketPrices : list (string * dec)) (key : option string) : dec :=
  let k := match key with Some s => s | None => "undefined"%string end in
  match find (fun kv => String.eqb (fst kv) k) marketPrices with
  | Some (_, v) => v
  | None => NaN
  end.

(** [new Decimal((marketPrices[tokenIn] / marketPrices[tokenOut]).toString())];
    the JavaScript number is taken as the exact quotient. *)
Definition desired_price (marketPrices : list (string * dec)) (p : WeightedPoolPairData) : dec :=
  dec_div (market_lookup marketPrices (tokenIn p)) (market_lookup marketPrices (tokenOut p)).

Section ArbOpp.

(** The helpers of [./numbers] ([fromFp], [fromFpDecimals], [fp]) are not
    among the sources; the development is generic in them.  Array reads out
    of range give [undefined] ([None]). *)
Variable fromFp : option Z -> result dec.
Variable fromFpDecimals : option Z -> Z -> result dec.
Variable fp : dec -> result Z.

Definition poolPairData (pool : PoolState) (inputTokenIndex outputTokenIndex : nat)
    : result WeightedPoolPairData :=
  swapFee' <- fromFp (Some (ps_swapFee pool)) ;;
  balanceIn' <- fromFpDecimals (nth_error (ps_balances pool) inputTokenIndex) 18 ;;
  weightIn' <- fromFp (nth_error (ps_weights pool) inputTokenIndex) ;;
  balanceOut' <- fromFpDecimals (nth_error (ps_balances pool) outputTokenIndex) 18 ;;
  weightOut' <- fromFp (nth_error (ps_weights pool) outputTokenIndex) ;;
  Ok {| pd_id := ps_id pool;
        pd_address := ps_address pool;
        swapFee := swapFee';
        tokenIn := nth_error (ps_tokens pool) inputTokenIndex;
        decimalsIn := 18;
        balanceIn := balanceIn';
        weightIn := weightIn';
        tokenOut := nth_error (ps_tokens pool) outputTokenIndex;
        balanceOut := balanceOut';
        decimalsOut := 18;
        weightOut := weightOut' |}.

Definition NUM_ITERATIONS : Z := 10.

Definition identifyArbitrageOpp (marketPrices : list (string * dec))
    (poolState : PoolState) (poolTokens : list string) : result (list BatchSwapStep) :=
  pairData0 <- poolPairData poolState 0 1 ;;
  let spotPrice := getSpotPrice pairData0 in
  let desired0 := desired_price marketPrices pairData0 in
  dir <- (if js_gt_dec desired0 spotPrice then
            pairData1 <- poolPairData poolState 1 0 ;;
            Ok (1%Z, 0%Z, pairData1, desired_price marketPrices pairData1)
          else Ok (0%Z, 1%Z, pairData0, desired0)) ;;
  let '(assetInIndex', assetOutIndex', pairData, desiredSpotPrice) := dir in
  amountDecimal <- getAmountInForSpotPrice pairData desiredSpotPrice NUM_ITERATIONS ;;
  amount' <- fp amountDecimal ;;
  Ok [ {| poolId := ps_id poolState;
          assetInIndex := assetInIndex';
          assetOutIndex := assetOutIndex';
          amount := amount';
          userData := "0x"%string |} ].

End ArbOpp.

(** ** Concrete helpers for the absent numbers.ts *)

(** Modelled from the spec: [fromFp] of numbers.ts (not among the sources),
    the 18-decimal fixed-point reading of a BigNumber (§3: pair data in a
    fixed-point decimal representation); reading [undefined] throws. *)
Definition fromFp18 (x : option Z) : result dec :=
  match x with
  | Some v => Ok (Fin (IZR v / powerRZ 10 18))
  | None => Throw "fromFp: undefined"%string
  end.

(** Modelled from the spec: [fromFpDecimals] of numbers.ts (not among the
    sources), the reading of a BigNumber with [d] decimals. *)
Definition fromFpDecimals18 (x : option Z) (d : Z) : result dec :=
  match x with
  | Some v => Ok (Fin (IZR v / powerRZ 10 d))
  | None => Throw "fromFpDecimals: undefined"%string
  end.

(** ** Concrete inputs *)

(** Pair data with the given balances, weights and fee. *)
Definition pair_of (bi bo wi wo f : R) : WeightedPoolPairData :=
  {| pd_id := "pool"%string; pd_address := "pool"%string; swapFee := Fin f;
     tokenIn := Some "A"%string; decimalsIn := 18; balanceIn := Fin bi; weightIn := Fin wi;
     tokenOut := Some "B"%string; balanceOut := Fin bo; decimalsOut := 18; weightOut := Fin wo |}.

(** A two-token pool: balances 1000 and 2000, weights 0.5 and 0.5, no fee. *)
Definition pool_1000_2000 : PoolState :=
  {| ps_id := "pool"%string; ps_address := "pool"%string;
     ps_tokens := ["A"%string; "B"%string];
     ps_swapFee := 0%Z;
     ps_weights := [500000000000000000%Z; 500000000000000000%Z];
     ps_balances := [1000000000000000000000%Z; 2000000000000000000000%Z] |}.

(** The pair data that [poolPairData] builds from [pool_1000_2000] for the
    direction (0, 1) with the 18-decimal readings. *)
Definition pair_pool_1000_2000 : WeightedPoolPairData :=
  {| pd_id := "pool"%string; pd_address := "pool"%string;
     swapFee := Fin (IZR 0 / powerRZ 10 18); tokenIn := Some "A"%string; decimalsIn := 18;
     balanceIn := Fin (IZR 1000000000000000000000 / powerRZ 10 18);
     weightIn := Fin (IZR 500000000000000000 / powerRZ 10 18); tokenOut := Some "B"%string;
     balanceOut := Fin (IZR 2000000000000000000000 / powerRZ 10 18); decimalsOut := 18;
     weightOut := Fin (IZR 500000000000000000 / powerRZ 10 18) |}.

(** Market prices: token A at 10, token B at 1. *)
Definition prices_10_1 : list (string * dec) := [("A"%string, Fin 10); ("B"%string, Fin 1)].

(** The pair data of the opposite direction: what [poolPairData pool j i]
    builds when [poolPairData pool i j] builds [p]. *)
Definition swap_direction (p : WeightedPoolPairData) : WeightedPoolPairData :=
  {| pd_id := pd_id p; pd_address := pd_address p; swapFee := swapFee p;
     tokenIn := tokenOut p; decimalsIn := decimalsOut p; balanceIn := balanceOut p;
     weightIn := weightOut p; tokenOut := tokenIn p; balanceOut := balanceIn p;
     decimalsOut := decimalsIn p; weightOut := weightIn p |}.

(** ** BigNumber fixed-point helpers of arbOpp.ts *)

(** [BigNumber.prototype.div] of ethers: a zero divisor throws, otherwise
    the quotient is truncated toward zero. *)
Definition bn_div (a b : Z) : result Z :=
  if (b =? 0)%Z then Throw "division-by-zero"%string else Ok (Z.quot a b).

(** [SCALE = parseUnits('1')]. *)
Definition SCALE : Z := (10 ^ 18)%Z.

Definition multiplyFP (a b : Z) : result Z := bn_div (a * b) SCALE.

Definition divideFP (a b : Z) : result Z := bn_div (a * SCALE) b.

(** ** weightedPool.ts *)

(** [scale]: [input.mul(BigNumber.from(10).pow(decimalPlaces))]; ethers'
    [pow] throws on a negative exponent.  [decimalPlaces] is an integer. *)
Definition scale (input : Z) (decimalPlaces : Z) : result Z :=
  if (decimalPlaces <? 0)%Z then Throw "negative-power"%string
  else Ok (input * 10 ^ decimalPlaces)%Z.

(** [SwapTypes] (types.ts). *)
Inductive SwapTypes : Type :=
  | SwapExactIn
  | SwapExactOut.

Definition MAX_IN_RATIO : dec := Fin (3 / 10).
Definition MAX_OUT_RATIO : dec := Fin (3 / 10).

(** [WeightedPool.getLimitAmountSwap]. *)
Definition getLimitAmountSwap (poolPairData : WeightedPoolPairData) (swapType : SwapTypes) : dec :=
  match swapType with
  | SwapExactIn => dec_mul (balanceIn poolPairData) MAX_IN_RATIO
  | SwapExactOut => dec_mul (balanceOut poolPairData) MAX_OUT_RATIO
  end.

(** ** Lemmas on the Decimal operations *)

Lemma Req_b_true (a b : R) : a = b -> Req_b a b = true.
Proof. intros ->. unfold Req_b. destruct (Req_dec_T b b); congruence. Qed.

Lemma Req_b_false (a b : R) : a <> b -> Req_b a b = false.
Proof. intros H. unfold Req_b. destruct (Req_dec_T a b); congruence. Qed.

Lemma Rlt_b_true (a b : R) : a < b -> Rlt_b a b = true.
Proof. intros H. unfold Rlt_b. destruct (Rlt_dec a b); [reflexivity | contradiction]. Qed.

Lemma Rlt_b_false (a b : R) : ~ a < b -> Rlt_b a b = false.
Proof. intros H. unfold Rlt_b. destruct (Rlt_dec a b); [contradiction | reflexivity]. Qed.

Lemma dec_sub_fin (a b : R) : dec_sub (Fin a) (Fin b) = Fin (a - b).
Proof. reflexivity. Qed.

Lemma dec_add_fin (a b : R) : dec_add (Fin a) (Fin b) = Fin (a + b).
Proof. reflexivity. Qed.

Lemma dec_mul_fin (a b : R) : dec_mul (Fin a) (Fin b) = Fin (a * b).
Proof. reflexivity. Qed.

Lemma dec_div_fin (a b : R) : b <> 0 -> dec_div (Fin a) (Fin b) = Fin (a / b).
Proof. intros H. simpl. rewrite (Req_b_false b 0 H). reflexivity. Qed.

Lemma Rpower_base_1 (y : R) : Rpower 1 y = 1.
Proof. unfold Rpower. rewrite ln_1, Rmult_0_r. apply exp_0. Qed.

Lemma Int_part_IZR_le (r : R) (z : Z) : IZR z <= r < IZR z + 1 -> Int_part r = z.
Proof.
  intros [H1 H2]. unfold Int_part.
  rewrite <- (tech_up r (z + 1)); [ring | rewrite plus_IZR; lra | rewrite plus_IZR; lra].
Qed.

(** On a positive base, [pow] is [exp (y * ln x)] whatever the exponent. *)
Lemma dec_pow_pos (a b : R) : 0 < a -> dec_pow (Fin a) (Fin b) = Fin (Rpower a b).
Proof.
  intros Ha. unfold dec_pow.
  rewrite (Req_b_false a 0) by lra. simpl.
  unfold Req_b at 1. destruct (Req_dec_T b 0) as [Hb | Hb].
  - simpl. rewrite (Req_b_true b 0 Hb). subst b. now rewrite Rpower_O.
  - simpl. unfold Req_b at 1. destruct (Req_dec_T a 1) as [H1 | H1].
    + subst a. now rewrite Rpower_base_1.
    + unfold Req_b at 1. destruct (Req_dec_T b 1) as [H2 | H2].
      * subst b. now rewrite Rpower_1.
      * unfold is_int, Req_b. destruct (Req_dec_T (IZR (Int_part b)) b) as [H3 | H3].
        -- rewrite powerRZ_Rpower by exact Ha. now rewrite H3.
        -- rewrite (Rlt_b_false a 0) by lra. reflexivity.
Qed.


Lemma Rpower_pos (a b : R) : 0 < Rpower a b.
Proof. unfold Rpower. apply exp_pos. Qed.

Lemma Rdiv_lt_1_pos (a b : R) : 0 < b -> a < b -> a / b < 1.
Proof.
  intros Hb Hab. apply (Rmult_lt_reg_r b); [exact Hb|].
  unfold Rdiv. rewrite Rmult_assoc, Rinv_l by lra. lra.
Qed.

(** ** Spot price and solver *)

Lemma getSpotPrice_fin (pd : WeightedPoolPairData) (bi bo wi wo f : R) :
  balanceIn pd = Fin bi -> balanceOut pd = Fin bo ->
  weightIn pd = Fin wi -> weightOut pd = Fin wo -> swapFee pd = Fin f ->
  0 < bi -> 0 < wi -> 0 < wo -> f < 1 ->
  getSpotPrice pd = Fin ((bo / wo) / (bi / wi) / (1 - f)).
Proof.
  intros Hbi Hbo Hwi Hwo Hf Pbi Pwi Pwo Pf. unfold getSpotPrice.
  rewrite Hbi, Hbo, Hwi, Hwo, Hf, dec_sub_fin.
  rewrite (dec_div_fin bi wi), (dec_div_fin bo wo) by lra.
  assert (0 < bi / wi) by (apply Rdiv_lt_0_compat; lra).
  rewrite dec_div_fin by lra. rewrite dec_div_fin by lra. reflexivity.
Qed.

(** The loop guard [undefined < numIterations] is false: the solver
    returns its zero-fee estimate. *)
Lemma getAmountInForSpotPrice_unfold (pd : WeightedPoolPairData) (d : dec) (n : Z) :
  getAmountInForSpotPrice pd d n = Ok (getAmountInForSpotPriceAfterSwapNoFees pd d).
Proof. reflexivity. Qed.

(** A zero [balanceIn] makes the spot price +Infinity. *)
Lemma getSpotPrice_zero_balanceIn (pd : WeightedPoolPairData) (bo wi wo f : R) :
  balanceIn pd = Fin 0 -> balanceOut pd = Fin bo ->
  weightIn pd = Fin wi -> weightOut pd = Fin wo -> swapFee pd = Fin f ->
  0 < bo -> 0 < wi -> 0 < wo -> f < 1 ->
  getSpotPrice pd = PInf.
Proof.
  intros Hbi Hbo Hwi Hwo Hf Pbo Pwi Pwo Pf. unfold getSpotPrice.
  rewrite Hbi, Hbo, Hwi, Hwo, Hf, dec_sub_fin.
  rewrite (dec_div_fin 0 wi), (dec_div_fin bo wo) by lra.
  rewrite Rdiv_0_l. simpl.
  rewrite (Req_b_true 0 0), (Req_b_false (bo / wo) 0) by (reflexivity || (apply Rgt_not_eq, Rdiv_lt_0_compat; lra)).
  unfold inf_of_sign. rewrite (Rlt_b_true 0 (bo / wo)) by (apply Rdiv_lt_0_compat; lra).
  simpl. rewrite (Rlt_b_false (1 - f) 0) by lra. reflexivity.
Qed.

(** With a +Infinity spot price and positive weights, the zero-fee estimate
    is [balanceIn * ((d / Infinity)^exponent - 1) = 0 * Infinity = NaN]. *)
Lemma noFees_zero_balanceIn (pd : WeightedPoolPairData) (wi wo d : R) :
  getSpotPrice pd = PInf -> balanceIn pd = Fin 0 ->
  weightIn pd = Fin wi -> weightOut pd = Fin wo -> 0 < wi -> 0 < wo ->
  getAmountInForSpotPriceAfterSwapNoFees pd (Fin d) = NaN.
Proof.
  intros Hsp Hbi Hwi Hwo Pwi Pwo. unfold getAmountInForSpotPriceAfterSwapNoFees.
  rewrite Hsp, Hbi, Hwi, Hwo, dec_add_fin, dec_div_fin by lra.
  rewrite dec_sub_fin.
  assert (He : wo / (wi + wo) - 1 < 0) by (pose proof (Rdiv_lt_1_pos wo (wi + wo)); lra).
  simpl dec_div. unfold dec_pow.
  rewrite (Req_b_true 0 0) by reflexivity. simpl orb. unfold math_pow.
  rewrite (Req_b_false (wo / (wi + wo) - 1) 0) by lra.
  rewrite (Req_b_true 0 0) by reflexivity.
  rewrite (Rlt_b_false 0 (wo / (wi + wo) - 1)) by lra.
  simpl. rewrite (Req_b_true 0 0) by reflexivity. reflexivity.
Qed.

(** ** Claims on the solver *)

(** C1 (code_bug): [getAmountInForSpotPrice] performs no refinement at all.
    Its loop counter [i] is declared without a value, so the guard
    [undefined < numIterations] is false and the function returns the
    zero-fee estimate for every iteration count; and a loop started at 0
    would throw at its first round, because [getExtraAmountIn] returns
    [undefined] and [amountIn.add(undefined)] raises a DecimalError. *)
Theorem getAmountInForSpotPrice_skips_refinement (pd : WeightedPoolPairData) (d : dec) (n : Z) :
  getAmountInForSpotPrice pd d n = Ok (getAmountInForSpotPriceAfterSwapNoFees pd d) /\
  (forall (k fuel : nat) (a s : dec),
     refine_loop (S fuel) pd d (Z.of_nat (S k)) (Some 0%Z) a s
     = Throw "[DecimalError] Invalid argument: undefined"%string).
Proof.
  split.
  - apply getAmountInForSpotPrice_unfold.
  - intros k fuel a s. reflexivity.
Qed.

(** C9: the spot price of the solver and of the direction check is
    [(balanceOut / weightOut) / (balanceIn / weightIn) / (1 - swapFee)],
    strictly above the fee-free ratio when the fee is positive. *)
Theorem getSpotPrice_divides_by_fee_complement (pd : WeightedPoolPairData) (bi bo wi wo f : R) :
  balanceIn pd = Fin bi -> balanceOut pd = Fin bo ->
  weightIn pd = Fin wi -> weightOut pd = Fin wo -> swapFee pd = Fin f ->
  0 < bi -> 0 < bo -> 0 < wi -> 0 < wo -> 0 <= f < 1 ->
  getSpotPrice pd = Fin ((bo / wo) / (bi / wi) / (1 - f)) /\
  (0 < f -> (bo / wo) / (bi / wi) < (bo / wo) / (bi / wi) / (1 - f)).
Proof.
  intros Hbi Hbo Hwi Hwo Hf Pbi Pbo Pwi Pwo [Pf0 Pf1]. split.
  - apply getSpotPrice_fin; assumption.
  - intros Hf0.
    assert (Hq : 0 < (bo / wo) / (bi / wi))
      by (apply Rdiv_lt_0_compat; apply Rdiv_lt_0_compat; lra).
    set (q := (bo / wo) / (bi / wi)) in *.
    replace (q / (1 - f)) with (q + q * f / (1 - f)) by (field; lra).
    assert (0 < q * f / (1 - f))
      by (apply Rdiv_lt_0_compat; [apply Rmult_lt_0_compat |]; lra).
    lra.
Qed.

Lemma getSpotPrice_divides_by_fee_complement_witness :
  getSpotPrice (pair_of 1000 1000 (3/10) (7/10) (3/1000))
    = Fin ((1000 / (7/10)) / (1000 / (3/10)) / (1 - 3/1000)) /\
  (0 < 3/1000 -> (1000 / (7/10)) / (1000 / (3/10))
                 < (1000 / (7/10)) / (1000 / (3/10)) / (1 - 3/1000)).
Proof.
  apply (getSpotPrice_divides_by_fee_complement (pair_of 1000 1000 (3/10) (7/10) (3/1000)));
    try reflexivity; lra.
Defined.

(** C8: at the pool's own spot price the solver returns 0: the price ratio
    is 1, [1^exponent - 1 = 0] and no refinement follows. *)
Theorem getAmountInForSpotPrice_at_spot_price (pd : WeightedPoolPairData) (bi bo wi wo f : R) (n : Z) :
  balanceIn pd = Fin bi -> balanceOut pd = Fin bo ->
  weightIn pd = Fin wi -> weightOut pd = Fin wo -> swapFee pd = Fin f ->
  0 < bi -> 0 < bo -> 0 < wi -> 0 < wo -> 0 <= f < 1 ->
  exists r, getAmountInForSpotPrice pd (getSpotPrice pd) n = Ok (Fin r) /\ Rabs r < / 10 ^ 9.
Proof.
  intros Hbi Hbo Hwi Hwo Hf Pbi Pbo Pwi Pwo [Pf0 Pf1].
  rewrite getAmountInForSpotPrice_unfold. unfold getAmountInForSpotPriceAfterSwapNoFees.
  rewrite (getSpotPrice_fin pd bi bo wi wo f) by assumption.
  set (s := (bo / wo) / (bi / wi) / (1 - f)).
  assert (Hs : 0 < s)
    by (unfold s; repeat apply Rdiv_lt_0_compat; lra).
  rewrite Hbi, Hwi, Hwo, dec_div_fin by lra.
  rewrite Rdiv_diag by lra.
  rewrite dec_add_fin, dec_div_fin by lra.
  rewrite dec_sub_fin, dec_pow_pos by lra.
  rewrite Rpower_base_1. unfold ONE. rewrite dec_sub_fin, dec_mul_fin.
  exists (bi * (1 - 1)). split; [reflexivity|].
  replace (bi * (1 - 1)) with 0 by ring. rewrite Rabs_R0.
  apply Rinv_0_lt_compat, pow_lt. lra.
Qed.

Lemma getAmountInForSpotPrice_at_spot_price_witness :
  exists r, getAmountInForSpotPrice (pair_of 1000 1000 (3/10) (7/10) (3/1000))
              (getSpotPrice (pair_of 1000 1000 (3/10) (7/10) (3/1000))) 10 = Ok (Fin r)
            /\ Rabs r < / 10 ^ 9.
Proof.
  apply (getAmountInForSpotPrice_at_spot_price _ 1000 1000 (3/10) (7/10) (3/1000));
    try reflexivity; lra.
Defined.

(** C7 (corrected): there is no InvalidPoolState check.  With a zero
    [balanceIn] the spot price evaluates to +Infinity and the zero-fee
    estimate computed before the loop to NaN, without any error. *)
Theorem getAmountInForSpotPrice_zero_balance_no_check (pd : WeightedPoolPairData) (bo wi wo f d : R) :
  balanceIn pd = Fin 0 -> balanceOut pd = Fin bo ->
  weightIn pd = Fin wi -> weightOut pd = Fin wo -> swapFee pd = Fin f ->
  0 < bo -> 0 < wi -> 0 < wo -> 0 <= f < 1 ->
  getSpotPrice pd = PInf /\ getAmountInForSpotPriceAfterSwapNoFees pd (Fin d) = NaN.
Proof.
  intros Hbi Hbo Hwi Hwo Hf Pbo Pwi Pwo [Pf0 Pf1].
  assert (Hsp : getSpotPrice pd = PInf)
    by (apply (getSpotPrice_zero_balanceIn pd bo wi wo f); assumption).
  split; [exact Hsp|].
  apply (noFees_zero_balanceIn pd wi wo d); assumption.
Qed.

Lemma getAmountInForSpotPrice_zero_balance_no_check_witness :
  getSpotPrice (pair_of 0 1000 (1/2) (1/2) 0) = PInf /\
  getAmountInForSpotPriceAfterSwapNoFees (pair_of 0 1000 (1/2) (1/2) 0) (Fin 1) = NaN.
Proof.
  apply (getAmountInForSpotPrice_zero_balance_no_check _ 1000 (1/2) (1/2) 0 1);
    try reflexivity; lra.
Defined.

(** C7 counterexample: on a pool with a zero [balanceIn] the solver returns
    normally (with NaN) instead of failing with InvalidPoolState. *)
Lemma getAmountInForSpotPrice_zero_balance_returns :
  getAmountInForSpotPrice (pair_of 0 1000 (1/2) (1/2) 0) (Fin 1) 10 = Ok NaN.
Proof.
  rewrite getAmountInForSpotPrice_unfold. f_equal.
  apply (noFees_zero_balanceIn _ (1/2) (1/2) 1); try reflexivity; try lra.
  apply (getSpotPrice_zero_balanceIn _ 1000 (1/2) (1/2) 0); try reflexivity; lra.
Qed.

(** ** Swap functions *)


Lemma exactIn_fin (pd : WeightedPoolPairData) (bi bo wi wo f ai : R) :
  balanceIn pd = Fin bi -> balanceOut pd = Fin bo ->
  weightIn pd = Fin wi -> weightOut pd = Fin wo -> swapFee pd = Fin f ->
  0 < bi -> 0 < wo -> 0 < bi + ai * (1 - f) ->
  _exactTokenInForTokenOut (Fin ai) pd
  = Fin (bo * (1 - Rpower (bi / (bi + ai * (1 - f))) (wi / wo))).
Proof.
  intros Hbi Hbo Hwi Hwo Hf Pbi Pwo Pden. unfold _exactTokenInForTokenOut.
  rewrite Hbi, Hbo, Hwi, Hwo, Hf. unfold ONE.
  rewrite dec_sub_fin, dec_mul_fin, dec_add_fin.
  rewrite (dec_div_fin bi) by lra. rewrite (dec_div_fin wi) by lra.
  rewrite dec_pow_pos by (apply Rdiv_lt_0_compat; lra).
  rewrite dec_sub_fin, dec_mul_fin. reflexivity.
Qed.

Lemma tokenIn_fin (pd : WeightedPoolPairData) (bi bo wi wo f ao : R) :
  balanceIn pd = Fin bi -> balanceOut pd = Fin bo ->
  weightIn pd = Fin wi -> weightOut pd = Fin wo -> swapFee pd = Fin f ->
  0 < wi -> 0 <= f -> 0 <= ao < bo ->
  _tokenInForExactTokenOut (Fin ao) pd
  = Fin (bi * ((-1 + Rpower (bo / (bo - ao)) (wo / wi)) / (-1 - f))).
Proof.
  intros Hbi Hbo Hwi Hwo Hf Pwi Pf [Pa0 Pa1]. unfold _tokenInForExactTokenOut.
  rewrite Hbi, Hbo, Hwi, Hwo, Hf. unfold NEGATIVE_ONE.
  rewrite dec_sub_fin, (dec_div_fin bo) by lra. rewrite (dec_div_fin wo) by lra.
  rewrite dec_pow_pos by (apply Rdiv_lt_0_compat; lra).
  rewrite dec_add_fin, dec_sub_fin, dec_div_fin by lra.
  rewrite dec_mul_fin. reflexivity.
Qed.

Lemma derivativeExactIn_fin (pd : WeightedPoolPairData) (bi bo wi wo f ai : R) :
  balanceIn pd = Fin bi -> balanceOut pd = Fin bo ->
  weightIn pd = Fin wi -> weightOut pd = Fin wo -> swapFee pd = Fin f ->
  0 < bi -> 0 < bo -> 0 < wi -> 0 < wo -> f < 1 -> 0 <= ai ->
  _derivativeSpotPriceAfterSwapExactTokenInForTokenOut (Fin ai) pd
  = Fin ((wi + wo) / (bo * (Rpower (bi / (ai + bi - ai * f)) (wi / wo) * wi))).
Proof.
  intros Hbi Hbo Hwi Hwo Hf Pbi Pbo Pwi Pwo Pf Pa.
  unfold _derivativeSpotPriceAfterSwapExactTokenInForTokenOut.
  rewrite Hbi, Hbo, Hwi, Hwo, Hf.
  assert (Hden : 0 < ai + bi - ai * f) by nra.
  rewrite dec_add_fin, dec_add_fin, dec_mul_fin, dec_sub_fin.
  rewrite (dec_div_fin bi) by lra. rewrite (dec_div_fin wi) by lra.
  rewrite dec_pow_pos by (apply Rdiv_lt_0_compat; lra).
  rewrite dec_mul_fin, dec_mul_fin.
  pose proof (Rpower_pos (bi / (ai + bi - ai * f)) (wi / wo)).
  rewrite dec_div_fin by (apply Rgt_not_eq; repeat apply Rmult_lt_0_compat; lra).
  reflexivity.
Qed.

(** ** Rounding to 20 significant digits *)

Lemma ln_10_pos : 0 < ln 10.
Proof. rewrite <- ln_1. apply ln_increasing; lra. Qed.

Lemma pow10_pos (e : Z) : 0 < powerRZ 10 e.
Proof. apply powerRZ_lt; lra. Qed.

Lemma pow10_add (a b : Z) : powerRZ 10 (a + b) = powerRZ 10 a * powerRZ 10 b.
Proof. apply powerRZ_add; lra. Qed.

Lemma pow10_exp (e : Z) : powerRZ 10 e = exp (IZR e * ln 10).
Proof. rewrite powerRZ_Rpower by lra. reflexivity. Qed.

Lemma pow10_lt (a b : Z) : (a < b)%Z -> powerRZ 10 a < powerRZ 10 b.
Proof.
  intros H. rewrite !pow10_exp. apply exp_increasing.
  apply Rmult_lt_compat_r; [apply ln_10_pos | apply IZR_lt; exact H].
Qed.

Lemma pow10_le (a b : Z) : (a <= b)%Z -> powerRZ 10 a <= powerRZ 10 b.
Proof.
  intros H. destruct (Z.eq_dec a b) as [-> | Hn]; [lra |].
  apply Rlt_le, pow10_lt; lia.
Qed.

Lemma pow10_lt_inv (a b : Z) : powerRZ 10 a < powerRZ 10 b -> (a < b)%Z.
Proof.
  intros H. destruct (Z_lt_le_dec a b) as [Hl | Hl]; [exact Hl |].
  pose proof (pow10_le b a Hl). lra.
Qed.

Lemma pow10_19 : powerRZ 10 19 = IZR 10000000000000000000.
Proof. simpl. ring. Qed.

Lemma pow10_20 : powerRZ 10 20 = IZR 100000000000000000000.
Proof. simpl. ring. Qed.

(** [dexp x] is the decimal exponent of [x > 0]. *)
Lemma dexp_spec (x : R) : 0 < x -> powerRZ 10 (dexp x) <= x < powerRZ 10 (dexp x + 1).
Proof.
  intros Hx. unfold dexp. set (t := ln x / ln 10).
  pose proof ln_10_pos as H10.
  destruct (base_Int_part t) as [H1 H2].
  assert (Ht : t * ln 10 = ln x) by (unfold t; field; lra).
  rewrite !pow10_exp, plus_IZR. rewrite <- (exp_ln x Hx), <- Ht. split.
  - destruct (Req_dec (IZR (Int_part t)) t) as [E | E].
    + rewrite E. lra.
    + apply Rlt_le, exp_increasing. apply Rmult_lt_compat_r; lra.
  - apply exp_increasing. apply Rmult_lt_compat_r; lra.
Qed.

Lemma dexp_unique (x : R) (e : Z) :
  powerRZ 10 e <= x < powerRZ 10 (e + 1) -> dexp x = e.
Proof.
  intros [H1 H2].
  assert (Hx : 0 < x) by (pose proof (pow10_pos e); lra).
  destruct (dexp_spec x Hx) as [H3 H4].
  assert (A : (dexp x < e + 1)%Z) by (apply pow10_lt_inv; lra).
  assert (B : (e < dexp x + 1)%Z) by (apply pow10_lt_inv; lra).
  lia.
Qed.

Lemma Int_part_le (a b : R) : a <= b -> (Int_part a <= Int_part b)%Z.
Proof.
  intros H. destruct (base_Int_part a) as [A1 A2]. destruct (base_Int_part b) as [B1 B2].
  assert (L : IZR (Int_part a) < IZR (Int_part b + 1)) by (rewrite plus_IZR; lra).
  apply lt_IZR in L. lia.
Qed.

(** The scaled value [x * 10^(19 - e)] lies in [[10^19, 10^20)], so its
    rounding has 20 digits, or is [10^20] after a carry. *)
Lemma coef_bounds (x : R) : 0 < x ->
  IZR 10000000000000000000 <= x * powerRZ 10 (19 - dexp x) < IZR 100000000000000000000.
Proof.
  intros Hx. destruct (dexp_spec x Hx) as [H1 H2].
  pose proof (pow10_pos (19 - dexp x)) as P.
  assert (E1 : powerRZ 10 19 = powerRZ 10 (dexp x) * powerRZ 10 (19 - dexp x))
    by (rewrite <- pow10_add; f_equal; ring).
  assert (E2 : powerRZ 10 20 = powerRZ 10 (dexp x + 1) * powerRZ 10 (19 - dexp x))
    by (rewrite <- pow10_add; f_equal; ring).
  rewrite <- pow10_19, <- pow10_20, E1, E2.
  split; [apply Rmult_le_compat_r | apply Rmult_lt_compat_r]; lra.
Qed.

Lemma digits_bounds (x : R) : 0 < x ->
  (10000000000000000000 <= Int_part (x * powerRZ 10 (19 - dexp x) + / 2)
     <= 100000000000000000000)%Z.
Proof.
  intros Hx. destruct (coef_bounds x Hx) as [H1 H2].
  set (m := x * powerRZ 10 (19 - dexp x)) in *.
  split.
  - assert (E : Int_part (IZR 10000000000000000000) = 10000000000000000000%Z)
      by (apply Int_part_IZR_le; lra).
    rewrite <- E. apply Int_part_le. lra.
  - destruct (base_Int_part (m + / 2)) as [B1 B2].
    assert (L : IZR (Int_part (m + / 2)) < IZR (100000000000000000000 + 1))
      by (rewrite plus_IZR; lra).
    apply lt_IZR in L. lia.
Qed.

(** On [x > 0], [round20] is [x] scaled to 20 digits, rounded half up,
    and scaled back; a carry to [10^20] gives the same value. *)
Lemma round20_pos (x : R) : 0 < x ->
  round20 x = IZR (Int_part (x * powerRZ 10 (19 - dexp x) + / 2)) * powerRZ 10 (dexp x - 19).
Proof.
  intros Hx. pose proof (digits_bounds x Hx) as Hc. unfold round20.
  rewrite (Req_b_false x 0) by lra. rewrite (Rabs_pos_eq x) by lra.
  rewrite (Rlt_b_false x 0) by lra.
  unfold dnorm. cbv zeta.
  set (c := Int_part (x * powerRZ 10 (19 - dexp x) + / 2)) in *.
  destruct (Z.leb_spec (10 ^ 20) c) as [H | H].
  - change (10 ^ 20)%Z with 100000000000000000000%Z in H.
    assert (Ec : c = 100000000000000000000%Z) by lia. rewrite Ec.
    change (100000000000000000000 / 10)%Z with 10000000000000000000%Z.
    replace (dexp x + 1 - 19)%Z with (1 + (dexp x - 19))%Z by ring.
    rewrite pow10_add.
    change 100000000000000000000%Z with (10 * 10000000000000000000)%Z.
    rewrite mult_IZR. simpl (powerRZ 10 1). ring.
  - ring.
Qed.

Lemma round20_0 : round20 0 = 0.
Proof. unfold round20. rewrite Req_b_true by reflexivity. reflexivity. Qed.

Lemma round20_opp (x : R) : round20 (- x) = - round20 x.
Proof.
  unfold round20. destruct (Req_dec x 0) as [E | E].
  - subst x. rewrite Ropp_0, Req_b_true by reflexivity. ring.
  - rewrite (Req_b_false x 0 E). rewrite (Req_b_false (- x) 0) by (intro; apply E; lra).
    rewrite Rabs_Ropp. destruct (dnorm (Rabs x)) as [c e].
    destruct (Rlt_dec x 0) as [L | L].
    + rewrite (Rlt_b_false (- x) 0), (Rlt_b_true x 0) by lra. ring.
    + rewrite (Rlt_b_true (- x) 0), (Rlt_b_false x 0) by lra. ring.
Qed.

Lemma round20_pos_pos (x : R) : 0 < x -> 0 < round20 x.
Proof.
  intros Hx. rewrite round20_pos by exact Hx.
  pose proof (digits_bounds x Hx) as Hc.
  apply Rmult_lt_0_compat; [apply IZR_lt; lia | apply pow10_pos].
Qed.

Lemma round20_nonneg (x : R) : 0 <= x -> 0 <= round20 x.
Proof.
  intros H. destruct (Req_dec x 0) as [-> | E]; [rewrite round20_0; lra |].
  apply Rlt_le, round20_pos_pos. lra.
Qed.

Lemma round20_nonpos (x : R) : x <= 0 -> round20 x <= 0.
Proof.
  intros H. replace x with (- (- x)) by ring. rewrite round20_opp.
  pose proof (round20_nonneg (- x) ltac:(lra)). lra.
Qed.

Lemma round20_le_pos (x y : R) : 0 < x -> x <= y -> round20 x <= round20 y.
Proof.
  intros Hx Hxy. assert (Hy : 0 < y) by lra.
  rewrite (round20_pos x Hx), (round20_pos y Hy).
  destruct (dexp_spec x Hx) as [X1 X2]. destruct (dexp_spec y Hy) as [Y1 Y2].
  pose proof (digits_bounds x Hx) as Cx. pose proof (digits_bounds y Hy) as Cy.
  set (ex := dexp x) in *. set (ey := dexp y) in *.
  assert (Hle : (ex < ey + 1)%Z) by (apply pow10_lt_inv; lra).
  destruct (Z.eq_dec ex ey) as [E | E].
  - rewrite E. apply Rmult_le_compat_r; [apply Rlt_le, pow10_pos |].
    apply IZR_le, Int_part_le. apply Rplus_le_compat_r, Rmult_le_compat_r;
      [apply Rlt_le, pow10_pos | exact Hxy].
  - set (cx := Int_part (x * powerRZ 10 (19 - ex) + / 2)) in *.
    set (cy := Int_part (y * powerRZ 10 (19 - ey) + / 2)) in *.
    apply Rle_trans with (IZR 100000000000000000000 * powerRZ 10 (ex - 19)).
    { apply Rmult_le_compat_r; [apply Rlt_le, pow10_pos | apply IZR_le; lia]. }
    apply Rle_trans with (IZR 10000000000000000000 * powerRZ 10 (ey - 19)).
    2: { apply Rmult_le_compat_r; [apply Rlt_le, pow10_pos | apply IZR_le; lia]. }
    rewrite <- pow10_19, <- pow10_20, <- !pow10_add. apply pow10_le. lia.
Qed.

(** [round20] is monotone. *)
Lemma round20_le (x y : R) : x <= y -> round20 x <= round20 y.
Proof.
  intros H. destruct (Rlt_le_dec 0 x) as [Px | Px].
  - apply round20_le_pos; lra.
  - destruct (Rle_lt_dec 0 y) as [Py | Ny].
    + pose proof (round20_nonpos x Px). pose proof (round20_nonneg y Py). lra.
    + pose proof (round20_le_pos (- y) (- x) ltac:(lra) ltac:(lra)) as L.
      rewrite !round20_opp in L. lra.
Qed.

(** A value with at most 20 significant digits is not changed. *)
Lemma round20_exact (x : R) (e N : Z) :
  powerRZ 10 e <= x < powerRZ 10 (e + 1) -> x * powerRZ 10 (19 - e) = IZR N ->
  round20 x = x.
Proof.
  intros Hb HN. assert (Hx : 0 < x) by (pose proof (pow10_pos e); lra).
  rewrite round20_pos by exact Hx. rewrite (dexp_unique x e Hb), HN.
  rewrite (Int_part_IZR_le (IZR N + / 2) N) by lra.
  rewrite <- HN, Rmult_assoc, <- pow10_add.
  replace (19 - e + (e - 19))%Z with 0%Z by ring. simpl. ring.
Qed.

(** Rounding at most doubles a positive value. *)
Lemma round20_le_double (x : R) : 0 < x -> round20 x <= 2 * x.
Proof.
  intros Hx. rewrite round20_pos by exact Hx.
  destruct (coef_bounds x Hx) as [H1 H2].
  set (m := x * powerRZ 10 (19 - dexp x)) in *.
  destruct (base_Int_part (m + / 2)) as [B1 B2].
  pose proof (pow10_pos (dexp x - 19)) as P.
  apply Rle_trans with ((2 * m) * powerRZ 10 (dexp x - 19)).
  - apply Rmult_le_compat_r; lra.
  - unfold m. rewrite !Rmult_assoc, <- pow10_add.
    replace (19 - dexp x + (dexp x - 19))%Z with 0%Z by ring. simpl. lra.
Qed.

Lemma round20_1 : round20 1 = 1.
Proof. apply (round20_exact 1 0 10000000000000000000); simpl; lra. Qed.

(** A value below 1 by at most [10^-21] rounds to 1. *)
Lemma round20_one_minus (p : R) : 0 <= p <= / 1000000000000000000000 -> round20 (1 - p) = 1.
Proof.
  intros [H0 H1]. destruct (Req_dec p 0) as [-> | Hp].
  - rewrite Rminus_0_r. exact round20_1.
  - rewrite round20_pos by lra.
    rewrite (dexp_unique (1 - p) (-1)) by (simpl; lra).
    change (19 - -1)%Z with 20%Z. rewrite pow10_20.
    rewrite (Int_part_IZR_le _ 100000000000000000000) by lra.
    rewrite <- pow10_20, <- pow10_add. reflexivity.
Qed.

Lemma rdec_add_fin (a b : R) : rdec_add (Fin a) (Fin b) = Fin (round20 (a + b)).
Proof. reflexivity. Qed.

Lemma rdec_sub_fin (a b : R) : rdec_sub (Fin a) (Fin b) = Fin (round20 (a - b)).
Proof. reflexivity. Qed.

Lemma rdec_mul_fin (a b : R) : rdec_mul (Fin a) (Fin b) = Fin (round20 (a * b)).
Proof. reflexivity. Qed.

Lemma rdec_div_fin (a b : R) : b <> 0 -> rdec_div (Fin a) (Fin b) = Fin (round20 (a / b)).
Proof. intros H. unfold rdec_div. rewrite dec_div_fin by exact H. reflexivity. Qed.

Lemma rdec_pow_pos (a b : R) : 0 < a -> rdec_pow (Fin a) (Fin b) = Fin (round20 (Rpower a b)).
Proof. intros H. unfold rdec_pow. rewrite dec_pow_pos by exact H. reflexivity. Qed.

(** The rounded exact-in swap, step by step. *)
Lemma exactIn_rounded_fin (pd : WeightedPoolPairData) (bi bo wi wo f ai : R) :
  balanceIn pd = Fin bi -> balanceOut pd = Fin bo ->
  weightIn pd = Fin wi -> weightOut pd = Fin wo -> swapFee pd = Fin f ->
  0 < bi -> 0 < wo -> f < 1 -> 0 <= ai ->
  _exactTokenInForTokenOut_rounded (Fin ai) pd =
    let g := round20 (1 - f) in
    let t := round20 (ai * g) in
    let D := round20 (bi + t) in
    let B := round20 (bi / D) in
    let w := round20 (wi / wo) in
    let P := round20 (Rpower B w) in
    Fin (round20 (bo * round20 (1 - P))).
Proof.
  intros Hbi Hbo Hwi Hwo Hf Pbi Pwo Pf Pa. unfold _exactTokenInForTokenOut_rounded.
  rewrite Hbi, Hbo, Hwi, Hwo, Hf. unfold ONE. cbv zeta.
  rewrite rdec_sub_fin, rdec_mul_fin, rdec_add_fin.
  assert (Pg : 0 < round20 (1 - f)) by (apply round20_pos_pos; lra).
  assert (Pt : 0 <= round20 (ai * round20 (1 - f)))
    by (apply round20_nonneg, Rmult_le_pos; lra).
  assert (PD : 0 < round20 (bi + round20 (ai * round20 (1 - f))))
    by (apply round20_pos_pos; lra).
  rewrite (rdec_div_fin bi) by lra. rewrite (rdec_div_fin wi) by lra.
  rewrite rdec_pow_pos by (apply round20_pos_pos, Rdiv_lt_0_compat; lra).
  rewrite rdec_sub_fin, rdec_mul_fin. reflexivity.
Qed.

(** Roundings at the concrete inputs used below. *)
Lemma round20_1000 : round20 1000 = 1000.
Proof. apply (round20_exact 1000 3 10000000000000000000); simpl; lra. Qed.

Lemma round20_9000 : round20 9000 = 9000.
Proof. apply (round20_exact 9000 3 90000000000000000000); simpl; lra. Qed.

Lemma round20_10000 : round20 10000 = 10000.
Proof. apply (round20_exact 10000 4 10000000000000000000); simpl; lra. Qed.

Lemma round20_tenth : round20 (1 / 10) = 1 / 10.
Proof. apply (round20_exact (1 / 10) (-1) 10000000000000000000); simpl; lra. Qed.

Lemma round20_49 : round20 49 = 49.
Proof. apply (round20_exact 49 1 49000000000000000000); simpl; lra. Qed.

Lemma round20_atto : round20 (1 / 1000000000000000000) = 1 / 1000000000000000000.
Proof. apply (round20_exact _ (-18) 10000000000000000000); simpl; lra. Qed.

(** [1000 + 10^-18] needs 22 digits and rounds to 1000. *)
Lemma round20_1000_plus_atto : round20 (1000 + 1 / 1000000000000000000) = 1000.
Proof.
  rewrite round20_pos by lra.
  rewrite (dexp_unique _ 3) by (simpl; lra).
  change (19 - 3)%Z with 16%Z. change (3 - 19)%Z with (-16)%Z.
  rewrite (Int_part_IZR_le _ 10000000000000000000) by (simpl; lra).
  simpl. lra.
Qed.

(** ** Claims on the swap functions *)

(** C4 (corrected): over exact arithmetic [_exactTokenInForTokenOut] is
    [balanceOut * (1 - (balanceIn / (balanceIn + amountIn * (1 - fee)))^(weightIn / weightOut))],
    which is below [balanceOut]; with the 20-digit rounding of decimal.js the
    computed amount is finite and at most [balanceOut] when [balanceOut] has
    at most 20 significant digits. *)
Theorem exactTokenInForTokenOut_formula_below_balance (pd : WeightedPoolPairData) (bi bo wi wo f ai : R) :
  balanceIn pd = Fin bi -> balanceOut pd = Fin bo ->
  weightIn pd = Fin wi -> weightOut pd = Fin wo -> swapFee pd = Fin f ->
  0 < bi -> 0 < bo -> 0 < wi -> 0 < wo -> 0 <= f < 1 -> 0 <= ai ->
  _exactTokenInForTokenOut (Fin ai) pd
    = Fin (bo * (1 - Rpower (bi / (bi + ai * (1 - f))) (wi / wo))) /\
  bo * (1 - Rpower (bi / (bi + ai * (1 - f))) (wi / wo)) < bo /\
  (round20 bo = bo ->
   exists r, _exactTokenInForTokenOut_rounded (Fin ai) pd = Fin r /\ r <= bo).
Proof.
  intros Hbi Hbo Hwi Hwo Hf Pbi Pbo Pwi Pwo [Pf0 Pf1] Pa. split; [|split].
  - apply exactIn_fin; try assumption. nra.
  - pose proof (Rpower_pos (bi / (bi + ai * (1 - f))) (wi / wo)). nra.
  - intros Rbo.
    rewrite (exactIn_rounded_fin pd bi bo wi wo f ai) by assumption.
    cbv zeta. eexists. split; [reflexivity |].
    set (P := round20 (Rpower (round20 (bi / round20 (bi + round20 (ai * round20 (1 - f)))))
                                (round20 (wi / wo)))).
    assert (PP : 0 <= P) by (apply round20_nonneg, Rlt_le, Rpower_pos).
    clearbody P.
    assert (Hs : round20 (1 - P) <= 1).
    { rewrite <- round20_1 at 2. apply round20_le. lra. }
    destruct (Rle_lt_dec (round20 (1 - P)) 0) as [Hn | Hp].
    + assert (round20 (bo * round20 (1 - P)) <= 0) by (apply round20_nonpos; nra). lra.
    + rewrite <- Rbo at 2. apply round20_le. nra.
Qed.

Lemma exactTokenInForTokenOut_formula_below_balance_witness :
  _exactTokenInForTokenOut (Fin 50) (pair_of 1000 1000 (3/10) (7/10) (3/1000))
    = Fin (1000 * (1 - Rpower (1000 / (1000 + 50 * (1 - 3/1000))) ((3/10) / (7/10)))) /\
  1000 * (1 - Rpower (1000 / (1000 + 50 * (1 - 3/1000))) ((3/10) / (7/10))) < 1000 /\
  exists r, _exactTokenInForTokenOut_rounded (Fin 50) (pair_of 1000 1000 (3/10) (7/10) (3/1000))
              = Fin r /\ r <= 1000.
Proof.
  destruct (exactTokenInForTokenOut_formula_below_balance
              (pair_of 1000 1000 (3/10) (7/10) (3/1000)) 1000 1000 (3/10) (7/10) (3/1000) 50)
    as [A [B C]]; try reflexivity; try lra.
  split; [exact A | split; [exact B | apply C; exact round20_1000]].
Defined.

(** C4 counterexample: with weights 0.98/0.02, balances 1000/1000, no fee
    and [amountIn = 9000], the base is [1000 / 10000 = 0.1], the power
    [0.1^49] is below [10^-21], [1 - 0.1^49] rounds to 1, and the computed
    amount out is [balanceOut = 1000] itself. *)
Lemma exactTokenInForTokenOut_rounded_reaches_balance :
  _exactTokenInForTokenOut_rounded (Fin 9000) (pair_of 1000 1000 (98/100) (2/100) 0) = Fin 1000.
Proof.
  rewrite (exactIn_rounded_fin _ 1000 1000 (98/100) (2/100) 0 9000) by (try reflexivity; lra).
  cbv zeta.
  rewrite Rminus_0_r, round20_1, Rmult_1_r, round20_9000.
  replace (1000 + 9000) with 10000 by ring. rewrite round20_10000.
  replace (1000 / 10000) with (1 / 10) by field. rewrite round20_tenth.
  replace (98 / 100 / (2 / 100)) with 49 by field. rewrite round20_49.
  assert (E : Rpower (1 / 10) 49 = (1 / 10) ^ 49).
  { rewrite <- Rpower_pow by lra. f_equal. rewrite INR_IZR_INZ. reflexivity. }
  assert (Hs : (1 / 10) ^ 49 <= / 2000000000000000000000) by (simpl; lra).
  pose proof (Rpower_pos (1 / 10) 49) as Hp.
  pose proof (round20_le_double _ Hp) as Hd.
  pose proof (round20_pos_pos _ Hp) as Hq.
  rewrite round20_one_minus by lra.
  rewrite Rmult_1_r, round20_1000. reflexivity.
Qed.

(** C5 (corrected): computed with the 20-digit rounding of decimal.js,
    [_exactTokenInForTokenOut] is non-decreasing in [amountIn >= 0], and
    [_derivativeSpotPriceAfterSwapExactTokenInForTokenOut] is positive for
    every [amountIn >= 0]. *)
Theorem exactIn_nondecreasing_derivative_positive (pd : WeightedPoolPairData) (bi bo wi wo f : R) :
  balanceIn pd = Fin bi -> balanceOut pd = Fin bo ->
  weightIn pd = Fin wi -> weightOut pd = Fin wo -> swapFee pd = Fin f ->
  0 < bi -> 0 < bo -> 0 < wi -> 0 < wo -> 0 <= f < 1 ->
  (forall a1 a2, 0 <= a1 <= a2 ->
     exists r1 r2, _exactTokenInForTokenOut_rounded (Fin a1) pd = Fin r1 /\
                   _exactTokenInForTokenOut_rounded (Fin a2) pd = Fin r2 /\ r1 <= r2) /\
  (forall a, 0 <= a ->
     exists r, _derivativeSpotPriceAfterSwapExactTokenInForTokenOut (Fin a) pd = Fin r /\ 0 < r).
Proof.
  intros Hbi Hbo Hwi Hwo Hf Pbi Pbo Pwi Pwo [Pf0 Pf1]. split.
  - intros a1 a2 [Pa1 Pa12].
    rewrite (exactIn_rounded_fin pd bi bo wi wo f a1) by (try assumption; lra).
    rewrite (exactIn_rounded_fin pd bi bo wi wo f a2) by (try assumption; lra).
    cbv zeta. do 2 eexists. split; [reflexivity | split; [reflexivity |]].
    assert (Pg : 0 < round20 (1 - f)) by (apply round20_pos_pos; lra).
    set (g := round20 (1 - f)) in *. clearbody g.
    assert (T : round20 (a1 * g) <= round20 (a2 * g))
      by (apply round20_le, Rmult_le_compat_r; lra).
    assert (Pt : 0 <= round20 (a1 * g)) by (apply round20_nonneg, Rmult_le_pos; lra).
    set (t1 := round20 (a1 * g)) in *. set (t2 := round20 (a2 * g)) in *.
    clearbody t1 t2.
    assert (D : round20 (bi + t1) <= round20 (bi + t2)) by (apply round20_le; lra).
    assert (PD : 0 < round20 (bi + t1)) by (apply round20_pos_pos; lra).
    set (D1 := round20 (bi + t1)) in *. set (D2 := round20 (bi + t2)) in *.
    clearbody D1 D2.
    assert (B : round20 (bi / D2) <= round20 (bi / D1)).
    { apply round20_le. unfold Rdiv. apply Rmult_le_compat_l; [lra |].
      apply Rinv_le_contravar; lra. }
    assert (PB : 0 < round20 (bi / D2)) by (apply round20_pos_pos, Rdiv_lt_0_compat; lra).
    set (B1 := round20 (bi / D1)) in *. set (B2 := round20 (bi / D2)) in *.
    clearbody B1 B2.
    assert (Pw : 0 < round20 (wi / wo)) by (apply round20_pos_pos, Rdiv_lt_0_compat; lra).
    set (w := round20 (wi / wo)) in *. clearbody w.
    assert (Q : round20 (Rpower B2 w) <= round20 (Rpower B1 w))
      by (apply round20_le, Rle_Rpower_l; lra).
    set (Q1 := round20 (Rpower B1 w)) in *. set (Q2 := round20 (Rpower B2 w)) in *.
    clearbody Q1 Q2.
    assert (S : round20 (1 - Q1) <= round20 (1 - Q2)) by (apply round20_le; lra).
    apply round20_le, Rmult_le_compat_l; lra.
  - intros a Pa.
    rewrite (derivativeExactIn_fin pd bi bo wi wo f a) by (try assumption; lra).
    eexists; split; [reflexivity|].
    pose proof (Rpower_pos (bi / (a + bi - a * f)) (wi / wo)).
    apply Rdiv_lt_0_compat; [lra|]. repeat apply Rmult_lt_0_compat; lra.
Qed.

Lemma exactIn_nondecreasing_derivative_positive_witness :
  (forall a1 a2, 0 <= a1 <= a2 ->
     exists r1 r2, _exactTokenInForTokenOut_rounded (Fin a1) (pair_of 1000 1000 (3/10) (7/10) (3/1000)) = Fin r1 /\
                   _exactTokenInForTokenOut_rounded (Fin a2) (pair_of 1000 1000 (3/10) (7/10) (3/1000)) = Fin r2 /\
                   r1 <= r2) /\
  (forall a, 0 <= a ->
     exists r, _derivativeSpotPriceAfterSwapExactTokenInForTokenOut (Fin a)
                 (pair_of 1000 1000 (3/10) (7/10) (3/1000)) = Fin r /\ 0 < r).
Proof.
  apply (exactIn_nondecreasing_derivative_positive _ 1000 1000 (3/10) (7/10) (3/1000));
    try reflexivity; lra.
Defined.

(** C5 counterexample: on a balanced pool with no fee the derivative of the
    exact-in spot price at [amountIn = 0] is [1/500 > 0], not negative; and
    the computed amount out is 0 both for [amountIn = 0] and for
    [amountIn = 10^-18], since [1000 + 10^-18] rounds to 1000, so it is not
    strictly increasing. *)
Lemma exactIn_flat_derivative_positive_at_zero :
  _derivativeSpotPriceAfterSwapExactTokenInForTokenOut (Fin 0) (pair_of 1000 1000 (1/2) (1/2) 0)
    = Fin (1 / 500) /\ 0 < 1 / 500 /\
  _exactTokenInForTokenOut_rounded (Fin 0) (pair_of 1000 1000 (1/2) (1/2) 0) = Fin 0 /\
  _exactTokenInForTokenOut_rounded (Fin (1 / 1000000000000000000)) (pair_of 1000 1000 (1/2) (1/2) 0)
    = Fin 0.
Proof.
  split; [| split; [lra | split]].
  - rewrite (derivativeExactIn_fin _ 1000 1000 (1/2) (1/2) 0 0) by (try reflexivity; lra).
    replace (0 + 1000 - 0 * 0) with 1000 by ring.
    replace (1000 / 1000) with 1 by field. rewrite Rpower_base_1.
    f_equal. field.
  - rewrite (exactIn_rounded_fin _ 1000 1000 (1/2) (1/2) 0 0) by (try reflexivity; lra).
    cbv zeta. rewrite Rminus_0_r, round20_1, Rmult_0_l, round20_0, Rplus_0_r, round20_1000.
    replace (1000 / 1000) with 1 by field. replace (1 / 2 / (1 / 2)) with 1 by field.
    rewrite round20_1, Rpower_base_1, round20_1, Rminus_diag, round20_0, Rmult_0_r, round20_0.
    reflexivity.
  - rewrite (exactIn_rounded_fin _ 1000 1000 (1/2) (1/2) 0 (1 / 1000000000000000000))
      by (try reflexivity; lra).
    cbv zeta. rewrite Rminus_0_r, round20_1, Rmult_1_r, round20_atto, round20_1000_plus_atto.
    replace (1000 / 1000) with 1 by field. replace (1 / 2 / (1 / 2)) with 1 by field.
    rewrite round20_1, Rpower_base_1, round20_1, Rminus_diag, round20_0, Rmult_0_r, round20_0.
    reflexivity.
Qed.

(** C2 (code_bug): the round trip fails.  [_tokenInForExactTokenOut]
    divides by [-1 - fee] where the reference formula kept in its comment
    divides by [1 - fee]: for balances 1000/1000, weights 0.5/0.5, no fee and
    [amountOut = 100] it returns [-1000/9], and feeding that back into
    [_exactTokenInForTokenOut] gives [-125] instead of [100]. *)
Theorem round_trip_balanced_pool :
  _tokenInForExactTokenOut (Fin 100) (pair_of 1000 1000 (1/2) (1/2) 0) = Fin (-1000 / 9) /\
  _exactTokenInForTokenOut (Fin (-1000 / 9)) (pair_of 1000 1000 (1/2) (1/2) 0) = Fin (-125).
Proof.
  split.
  - rewrite (tokenIn_fin _ 1000 1000 (1/2) (1/2) 0 100) by (try reflexivity; lra).
    replace ((1/2) / (1/2)) with 1 by field.
    rewrite Rpower_1 by lra. f_equal. field.
  - rewrite (exactIn_fin _ 1000 1000 (1/2) (1/2) 0 (-1000 / 9)) by (try reflexivity; lra).
    replace ((1/2) / (1/2)) with 1 by field.
    rewrite Rpower_1 by lra. f_equal. field.
Qed.




(** ** String forms of 2 and 10 *)

Lemma dexp_2 : dexp 2 = 0%Z.
Proof.
  unfold dexp. apply Int_part_IZR_le.
  pose proof ln_10_pos.
  assert (H1 : 0 < ln 2) by (rewrite <- ln_1; apply ln_increasing; lra).
  assert (H2 : ln 2 < ln 10) by (apply ln_increasing; lra).
  split.
  - apply Rlt_le, Rdiv_lt_0_compat; assumption.
  - pose proof (Rdiv_lt_1_pos (ln 2) (ln 10) H H2). simpl. lra.
Qed.

Lemma dexp_10 : dexp 10 = 1%Z.
Proof.
  unfold dexp. apply Int_part_IZR_le.
  pose proof ln_10_pos. rewrite Rdiv_diag by lra. simpl. lra.
Qed.

Lemma dnorm_eq (r : R) (e c : Z) :
  dexp r = e -> Int_part (r * powerRZ 10 (19 - e) + / 2) = c -> (c <? 10 ^ 20)%Z = true ->
  dnorm r = (c, e).
Proof.
  intros He Hc Hlt. unfold dnorm. rewrite He, Hc.
  destruct (Z.leb_spec (10 ^ 20) c) as [H | H]; [apply Z.ltb_lt in Hlt; lia | reflexivity].
Qed.

Lemma dec_valueOf_2 : dec_valueOf (Fin 2) = "2"%string.
Proof.
  unfold dec_valueOf. rewrite (Req_b_false 2 0) by lra.
  rewrite Rabs_pos_eq by lra.
  rewrite (dnorm_eq 2 0 20000000000000000000); [| apply dexp_2 | | reflexivity].
  - rewrite (Rlt_b_false 2 0) by lra. reflexivity.
  - apply Int_part_IZR_le. simpl. lra.
Qed.

Lemma dec_valueOf_10 : dec_valueOf (Fin 10) = "10"%string.
Proof.
  unfold dec_valueOf. rewrite (Req_b_false 10 0) by lra.
  rewrite Rabs_pos_eq by lra.
  rewrite (dnorm_eq 10 1 10000000000000000000); [| apply dexp_10 | | reflexivity].
  - rewrite (Rlt_b_false 10 0) by lra. reflexivity.
  - apply Int_part_IZR_le. simpl. lra.
Qed.

(** [10 > 2] on Decimals is false: the strings "10" and "2" compare by
    their first characters. *)
Lemma js_gt_dec_10_2 : js_gt_dec (Fin 10) (Fin 2) = false.
Proof. unfold js_gt_dec. rewrite dec_valueOf_2, dec_valueOf_10. reflexivity. Qed.

(** ** The arbitrage step *)

Lemma powerRZ_10_18 : powerRZ 10 18 = 1000000000000000000.
Proof. simpl. ring. Qed.

(** Evaluation of [identifyArbitrageOpp] on balances 1000 and 2000, equal
    weights, no fee, with token A at 10 and token B at 1: the pool's spot
    price is 2, the reference ratio is 10, the string comparison answers
    "not greater" and the step trades token A (index 0) for token B. *)
Lemma identifyArbitrageOpp_pool_1000_2000 (fp : dec -> result Z) :
  poolPairData fromFp18 fromFpDecimals18 pool_1000_2000 0 1 = Ok pair_pool_1000_2000 /\
  getSpotPrice pair_pool_1000_2000 = Fin 2 /\
  desired_price prices_10_1 pair_pool_1000_2000 = Fin 10 /\
  identifyArbitrageOpp fromFp18 fromFpDecimals18 fp prices_10_1 pool_1000_2000 ["A"; "B"]%string
  = (a <- fp (getAmountInForSpotPriceAfterSwapNoFees pair_pool_1000_2000 (Fin 10)) ;;
     Ok [ {| poolId := "pool"; assetInIndex := 0; assetOutIndex := 1;
             amount := a; userData := "0x" |} ])%string.
Proof.
  assert (Hpp : poolPairData fromFp18 fromFpDecimals18 pool_1000_2000 0 1 = Ok pair_pool_1000_2000)
    by reflexivity.
  assert (Hsp : getSpotPrice pair_pool_1000_2000 = Fin 2).
  { rewrite (getSpotPrice_fin _ (IZR 1000000000000000000000 / powerRZ 10 18)
               (IZR 2000000000000000000000 / powerRZ 10 18)
               (IZR 500000000000000000 / powerRZ 10 18)
               (IZR 500000000000000000 / powerRZ 10 18) (IZR 0 / powerRZ 10 18));
      try reflexivity; rewrite powerRZ_10_18; try lra.
    f_equal. field. }
  assert (Hd : desired_price prices_10_1 pair_pool_1000_2000 = Fin 10).
  { unfold desired_price. cbn [tokenIn tokenOut pair_pool_1000_2000].
    replace (market_lookup prices_10_1 (Some "A"%string)) with (Fin 10) by reflexivity.
    replace (market_lookup prices_10_1 (Some "B"%string)) with (Fin 1) by reflexivity.
    rewrite dec_div_fin by lra. f_equal. field. }
  split; [exact Hpp|]. split; [exact Hsp|]. split; [exact Hd|].
  unfold identifyArbitrageOpp. rewrite Hpp. cbn [bind].
  rewrite Hsp, Hd, js_gt_dec_10_2. cbn [bind].
  rewrite getAmountInForSpotPrice_unfold. reflexivity.
Qed.

(** ** Claims on the arbitrage step *)

(** C6 (code_bug): the direction check [desiredSpotPrice > spotPrice]
    compares the two Decimals as strings.  With balances 1000 and 2000,
    equal weights, no fee and prices 10 (token A) and 1 (token B), the
    reference ratio 10 exceeds the pool's spot price 2, yet "10" < "2" as
    strings, so the direction is not switched and the emitted step sells
    token A, which the pool already underprices. *)
Theorem identifyArbitrageOpp_direction_by_string_order (fp : dec -> result Z) :
  getSpotPrice pair_pool_1000_2000 = Fin 2 /\
  desired_price prices_10_1 pair_pool_1000_2000 = Fin 10 /\
  2 < 10 /\
  js_gt_dec (Fin 10) (Fin 2) = false /\
  identifyArbitrageOpp fromFp18 fromFpDecimals18 fp prices_10_1 pool_1000_2000 ["A"; "B"]%string
  = (a <- fp (getAmountInForSpotPriceAfterSwapNoFees pair_pool_1000_2000 (Fin 10)) ;;
     Ok [ {| poolId := "pool"; assetInIndex := 0; assetOutIndex := 1;
             amount := a; userData := "0x" |} ])%string.
Proof.
  destruct (identifyArbitrageOpp_pool_1000_2000 fp) as (_ & Hsp & Hd & Hev).
  repeat split; try assumption; [lra | apply js_gt_dec_10_2].
Qed.

(** C10: whenever [identifyArbitrageOpp] returns, it returns one step on
    [poolState.id] with user data "0x" and indices (0, 1) or (1, 0), for any
    behaviour of the numbers helpers. *)
Theorem identifyArbitrageOpp_one_step
    (fromFp : option Z -> result dec) (fromFpDecimals : option Z -> Z -> result dec)
    (fp : dec -> result Z) (marketPrices : list (string * dec))
    (poolState : PoolState) (poolTokens : list string) (steps : list BatchSwapStep) :
  identifyArbitrageOpp fromFp fromFpDecimals fp marketPrices poolState poolTokens = Ok steps ->
  exists i o a,
    steps = [ {| poolId := ps_id poolState; assetInIndex := i; assetOutIndex := o;
                 amount := a; userData := "0x"%string |} ] /\
    ((i = 0 /\ o = 1) \/ (i = 1 /\ o = 0))%Z.
Proof.
  unfold identifyArbitrageOpp.
  destruct (poolPairData fromFp fromFpDecimals poolState 0 1) as [pd0 | m]; cbn [bind];
    [| discriminate].
  destruct (js_gt_dec (desired_price marketPrices pd0) (getSpotPrice pd0)).
  - destruct (poolPairData fromFp fromFpDecimals poolState 1 0) as [pd1 | m]; cbn [bind];
      [| discriminate].
    rewrite getAmountInForSpotPrice_unfold. cbn [bind].
    destruct (fp _) as [a | m]; cbn [bind]; [| discriminate].
    intros H. injection H as <-. exists 1%Z, 0%Z, a. split; [reflexivity | right; split; reflexivity].
  - cbn [bind]. rewrite getAmountInForSpotPrice_unfold. cbn [bind].
    destruct (fp _) as [a | m]; cbn [bind]; [| discriminate].
    intros H. injection H as <-. exists 0%Z, 1%Z, a. split; [reflexivity | left; split; reflexivity].
Qed.

Lemma identifyArbitrageOpp_one_step_witness :
  exists steps,
    identifyArbitrageOpp fromFp18 fromFpDecimals18 (fun _ => Ok 0%Z) prices_10_1 pool_1000_2000
      ["A"; "B"]%string = Ok steps /\
    exists i o a,
      steps = [ {| poolId := ps_id pool_1000_2000; assetInIndex := i; assetOutIndex := o;
                   amount := a; userData := "0x"%string |} ] /\
      ((i = 0 /\ o = 1) \/ (i = 1 /\ o = 0))%Z.
Proof.
  destruct (identifyArbitrageOpp_pool_1000_2000 (fun _ => Ok 0%Z)) as (_ & _ & _ & Hev).
  cbn [bind] in Hev.
  eexists. split; [exact Hev|].
  apply (identifyArbitrageOpp_one_step fromFp18 fromFpDecimals18 (fun _ => Ok 0%Z)
           prices_10_1 pool_1000_2000 ["A"; "B"]%string).
  exact Hev.
Defined.

(** ** The exact-in spot price raises a negative base to its power *)

Lemma is_int_3_2 : is_int (3 / 2) = false.
Proof.
  unfold is_int. rewrite (Int_part_IZR_le (3 / 2) 1) by (simpl; lra).
  apply Req_b_false. simpl. lra.
Qed.

(** With weights 0.25 and 0.5 the exponent [(wi + wo) / wo] is 3/2 and the
    base [Bo * (f - 1) * (Bi / ...)] is negative, so
    [_spotPriceAfterSwapExactTokenInForTokenOut] is NaN for every
    [amountIn >= 0]. *)
Lemma spotPriceExactIn_nan (a : R) :
  0 <= a ->
  _spotPriceAfterSwapExactTokenInForTokenOut (Fin a) (pair_of 1000 1000 (1/4) (1/2) 0) = NaN.
Proof.
  intros Pa. unfold _spotPriceAfterSwapExactTokenInForTokenOut, pair_of, ONE, NEGATIVE_ONE.
  cbn [balanceIn balanceOut weightIn weightOut swapFee].
  rewrite dec_mul_fin, dec_sub_fin, dec_mul_fin, dec_add_fin, dec_mul_fin, dec_sub_fin.
  rewrite (dec_div_fin 1000) by lra.
  rewrite dec_mul_fin, dec_add_fin, dec_div_fin by lra.
  replace ((1/4 + 1/2) / (1/2)) with (3 / 2) by field.
  set (b := 1000 * (0 - 1) * (1000 / (a + 1000 - a * 0))).
  assert (Hb : b < 0).
  { unfold b. assert (0 < 1000 / (a + 1000 - a * 0)) by (apply Rdiv_lt_0_compat; lra). lra. }
  unfold dec_pow.
  rewrite (Req_b_false b 0), (Req_b_false (3/2) 0), (Req_b_false b 1), (Req_b_false (3/2) 1)
    by lra.
  rewrite is_int_3_2, (Rlt_b_true b 0) by lra. reflexivity.
Qed.

(** * Further properties of the code *)

(** ** BigNumber helpers and [scale] *)

(** X1: [divideFP] undoes [multiplyFP] up to the truncation of the two
    divisions: for [a >= 0] and [b > 0] the round trip never exceeds [a]
    and loses less than [(SCALE + b) / b]. *)
Theorem multiplyFP_divideFP_round_trip (a b : Z) :
  (0 <= a)%Z -> (0 < b)%Z ->
  exists m r, multiplyFP a b = Ok m /\ divideFP m b = Ok r /\
              (r <= a)%Z /\ ((a - r) * b < SCALE + b)%Z.
Proof.
  intros Ha Hb. unfold multiplyFP, divideFP, bn_div.
  assert (HS : (0 < SCALE)%Z) by (unfold SCALE; lia).
  rewrite (proj2 (Z.eqb_neq SCALE 0)) by lia.
  rewrite (proj2 (Z.eqb_neq b 0)) by lia.
  exists (Z.quot (a * b) SCALE), (Z.quot (Z.quot (a * b) SCALE * SCALE) b).
  split; [reflexivity | split; [reflexivity |]].
  rewrite (Z.quot_div_nonneg (a * b) SCALE) by nia.
  set (m := ((a * b) / SCALE)%Z).
  assert (Hm1 : (SCALE * m <= a * b)%Z) by (apply Z.mul_div_le; lia).
  assert (Hm2 : (a * b < SCALE * (m + 1))%Z).
  { pose proof (Z.div_mod (a * b) SCALE ltac:(lia)).
    pose proof (Z.mod_pos_bound (a * b) SCALE HS). fold m in H. lia. }
  assert (Hm0 : (0 <= m)%Z) by (apply Z.div_pos; lia).
  rewrite (Z.quot_div_nonneg (m * SCALE) b) by nia.
  set (r := ((m * SCALE) / b)%Z).
  assert (Hr1 : (b * r <= m * SCALE)%Z) by (apply Z.mul_div_le; lia).
  assert (Hr2 : (m * SCALE < b * (r + 1))%Z).
  { pose proof (Z.div_mod (m * SCALE) b ltac:(lia)).
    pose proof (Z.mod_pos_bound (m * SCALE) b Hb). fold r in H. lia. }
  split; nia.
Qed.

Lemma multiplyFP_divideFP_round_trip_witness :
  (0 <= 3 * 10 ^ 18)%Z /\ (0 < 7)%Z /\
  exists m r, multiplyFP (3 * 10 ^ 18) 7 = Ok m /\ divideFP m 7 = Ok r /\
              (r <= 3 * 10 ^ 18)%Z /\ ((3 * 10 ^ 18 - r) * 7 < SCALE + 7)%Z.
Proof.
  split; [lia | split; [lia |]].
  apply multiplyFP_divideFP_round_trip; lia.
Defined.

(** X2: scaling by [10^d1] and then by [10^d2] is scaling by [10^(d1+d2)];
    a negative number of decimal places throws. *)
Theorem scale_compose (x d1 d2 : Z) :
  (0 <= d1)%Z -> (0 <= d2)%Z ->
  (s <- scale x d1 ;; scale s d2) = scale x (d1 + d2) /\
  scale x (- d1 - 1) = Throw "negative-power"%string.
Proof.
  intros H1 H2. unfold scale.
  rewrite (proj2 (Z.ltb_ge d1 0)), (proj2 (Z.ltb_ge d2 0)), (proj2 (Z.ltb_ge (d1 + d2) 0)) by lia.
  rewrite (proj2 (Z.ltb_lt (- d1 - 1) 0)) by lia.
  cbn [bind]. split; [| reflexivity].
  rewrite Z.pow_add_r by lia. f_equal. ring.
Qed.

Lemma scale_compose_witness :
  (0 <= 6)%Z /\ (0 <= 12)%Z /\
  (s <- scale 5 6 ;; scale s 12) = scale 5 (6 + 12) /\
  scale 5 (- 6 - 1) = Throw "negative-power"%string.
Proof. split; [lia | split; [lia |]]. apply scale_compose; lia. Defined.

(** ** Pair data of the two directions *)

Lemma poolPairData_mirror (fromFp : option Z -> result dec)
    (fromFpDecimals : option Z -> Z -> result dec) (ps : PoolState) (i j : nat)
    (p : WeightedPoolPairData) :
  poolPairData fromFp fromFpDecimals ps i j = Ok p ->
  poolPairData fromFp fromFpDecimals ps j i = Ok (swap_direction p).
Proof.
  unfold poolPairData.
  destruct (fromFp (Some (ps_swapFee ps))) as [sf | m] eqn:E1; cbn [bind]; [| discriminate].
  destruct (fromFpDecimals (nth_error (ps_balances ps) i) 18%Z) as [bi | m] eqn:E2;
    cbn [bind]; [| discriminate].
  destruct (fromFp (nth_error (ps_weights ps) i)) as [wi | m] eqn:E3; cbn [bind]; [| discriminate].
  destruct (fromFpDecimals (nth_error (ps_balances ps) j) 18%Z) as [bo | m] eqn:E4;
    cbn [bind]; [| discriminate].
  destruct (fromFp (nth_error (ps_weights ps) j)) as [wo | m] eqn:E5; cbn [bind]; [| discriminate].
  intros H. injection H as <-.
  cbn [bind]. reflexivity.
Qed.

(** X3: whenever [poolPairData] builds the pair data of the direction
    [(i, j)], the call for [(j, i)] succeeds too and builds the same data
    with the in and out fields exchanged, for any behaviour of the numbers
    helpers. *)
Theorem poolPairData_opposite_direction (fromFp : option Z -> result dec)
    (fromFpDecimals : option Z -> Z -> result dec) (ps : PoolState) (i j : nat)
    (p : WeightedPoolPairData) :
  poolPairData fromFp fromFpDecimals ps i j = Ok p ->
  poolPairData fromFp fromFpDecimals ps j i = Ok (swap_direction p).
Proof. apply poolPairData_mirror. Qed.

Lemma poolPairData_opposite_direction_witness :
  poolPairData fromFp18 fromFpDecimals18 pool_1000_2000 0 1 = Ok pair_pool_1000_2000 /\
  poolPairData fromFp18 fromFpDecimals18 pool_1000_2000 1 0 = Ok (swap_direction pair_pool_1000_2000).
Proof.
  assert (H : poolPairData fromFp18 fromFpDecimals18 pool_1000_2000 0 1 = Ok pair_pool_1000_2000)
    by reflexivity.
  split; [exact H | apply (poolPairData_opposite_direction _ _ _ 0 1); exact H].
Defined.

(** X4: the spot prices of the two directions of a pair multiply to
    [1 / (1 - fee)^2]: with no fee they are reciprocal. *)
Theorem getSpotPrice_opposite_direction (pd : WeightedPoolPairData) (bi bo wi wo f : R) :
  balanceIn pd = Fin bi -> balanceOut pd = Fin bo ->
  weightIn pd = Fin wi -> weightOut pd = Fin wo -> swapFee pd = Fin f ->
  0 < bi -> 0 < bo -> 0 < wi -> 0 < wo -> f < 1 ->
  exists s1 s2, getSpotPrice pd = Fin s1 /\ getSpotPrice (swap_direction pd) = Fin s2 /\
                s1 * s2 = 1 / ((1 - f) * (1 - f)).
Proof.
  intros Hbi Hbo Hwi Hwo Hf Pbi Pbo Pwi Pwo Pf.
  rewrite (getSpotPrice_fin pd bi bo wi wo f) by assumption.
  rewrite (getSpotPrice_fin (swap_direction pd) bo bi wo wi f) by (cbn; assumption).
  do 2 eexists. split; [reflexivity | split; [reflexivity |]].
  field. repeat split; lra.
Qed.

Lemma getSpotPrice_opposite_direction_witness :
  exists s1 s2, getSpotPrice (pair_of 1000 2500 (3/10) (7/10) (3/1000)) = Fin s1 /\
                getSpotPrice (swap_direction (pair_of 1000 2500 (3/10) (7/10) (3/1000))) = Fin s2 /\
                s1 * s2 = 1 / ((1 - 3/1000) * (1 - 3/1000)).
Proof.
  apply (getSpotPrice_opposite_direction _ 1000 2500 (3/10) (7/10) (3/1000));
    try reflexivity; lra.
Defined.

(** ** The string order puts NaN above every other Decimal *)

Lemma digit_char_below (d : Z) : (d < 10)%Z -> Ascii.compare (digit_char d) "N"%char = Lt.
Proof.
  intros H. unfold digit_char.
  assert (Hk : (Z.to_nat d < 10)%nat) by lia.
  remember (Z.to_nat d) as k eqn:Ek. clear Ek H.
  do 10 (destruct k as [|k]; [reflexivity |]). lia.
Qed.

Lemma digits_aux_first (fuel : nat) (n : Z) (acc : string) :
  (fuel <> 0%nat \/ exists c r, acc = String c r /\ Ascii.compare c "N"%char = Lt) ->
  exists c r, digits_aux fuel n acc = String c r /\ Ascii.compare c "N"%char = Lt.
Proof.
  revert n acc. induction fuel as [| f IH]; intros n acc H; simpl.
  - destruct H as [H | H]; [congruence | exact H].
  - destruct (n <? 10)%Z eqn:E.
    + exists (digit_char n), acc. split; [reflexivity |].
      apply digit_char_below. apply Z.ltb_lt. exact E.
    + apply IH. right. exists (digit_char (n mod 10)), acc. split; [reflexivity |].
      apply digit_char_below. pose proof (Z.mod_pos_bound n 10). lia.
Qed.

Lemma finiteToString_first (c : ascii) (rest : string) (e : Z) :
  Ascii.compare c "N"%char = Lt -> starts_below_N (finiteToString (String c rest) e).
Proof.
  intros Hc. unfold finiteToString.
  destruct ((e <=? -7)%Z || (21 <=? e)%Z).
  - destruct (1 <? _)%Z; simpl; exact Hc.
  - destruct (e <? 0)%Z eqn:Hneg; [exact eq_refl |].
    destruct (_ <=? e)%Z; [simpl; exact Hc |].
    destruct (e + 1 <? _)%Z; [| exact Hc].
    apply Z.ltb_ge in Hneg.
    replace (Z.to_nat (e + 1)) with (S (Z.to_nat e)) by lia.
    simpl. exact Hc.
Qed.

Lemma valueOf_below (y : dec) : y <> NaN -> starts_below_N (dec_valueOf y).
Proof.
  intros Hy. destruct y as [a | | |]; [| exact eq_refl | exact eq_refl | congruence].
  unfold dec_valueOf. destruct (Req_b a 0); [exact eq_refl |].
  destruct (dnorm (Rabs a)) as [c e]. destruct (Rlt_b a 0); [exact eq_refl |].
  unfold digits_of.
  destruct (digits_aux_first 64 (strip_zeros 64 c) EmptyString) as (c' & r & Hd & Hc);
    [left; discriminate |].
  rewrite Hd. apply finiteToString_first. exact Hc.
Qed.

Lemma below_N_lt (s : string) : starts_below_N s -> String.compare s "NaN"%string = Lt.
Proof. destruct s as [| c r]; simpl; [reflexivity |]. intros H. rewrite H. reflexivity. Qed.

Lemma js_gt_dec_NaN_left (y : dec) : y <> NaN -> js_gt_dec NaN y = true.
Proof.
  intros Hy. unfold js_gt_dec. change (dec_valueOf NaN) with "NaN"%string.
  rewrite below_N_lt by (apply valueOf_below; exact Hy). reflexivity.
Qed.

(** X5: under [>] on Decimals (the comparison of their [valueOf]
    strings), NaN is greater than every other value, infinities included,
    and no value is greater than NaN. *)
Theorem js_gt_dec_NaN (y : dec) :
  y <> NaN -> js_gt_dec NaN y = true /\ js_gt_dec y NaN = false.
Proof.
  intros Hy. split; [apply js_gt_dec_NaN_left; exact Hy |].
  unfold js_gt_dec. change (dec_valueOf NaN) with "NaN"%string.
  rewrite String.compare_antisym, below_N_lt by (apply valueOf_below; exact Hy).
  reflexivity.
Qed.

Lemma js_gt_dec_NaN_witness : js_gt_dec NaN NInf = true /\ js_gt_dec NInf NaN = false.
Proof. apply js_gt_dec_NaN. discriminate. Defined.

(** X6: when the market prices lack token 0 or token 1, the reference
    ratio is NaN, which the string comparison finds greater than any spot
    price that is not NaN: [identifyArbitrageOpp] always takes the direction
    (1, 0), and the amount it converts with [fp] is NaN. *)
Theorem identifyArbitrageOpp_missing_price
    (fromFp : option Z -> result dec) (fromFpDecimals : option Z -> Z -> result dec)
    (fp : dec -> result Z) (marketPrices : list (string * dec))
    (poolState : PoolState) (poolTokens : list string)
    (pd0 : WeightedPoolPairData) (wi wo : R) :
  poolPairData fromFp fromFpDecimals poolState 0 1 = Ok pd0 ->
  getSpotPrice pd0 <> NaN ->
  market_lookup marketPrices (tokenIn pd0) = NaN \/ market_lookup marketPrices (tokenOut pd0) = NaN ->
  weightIn pd0 = Fin wi -> weightOut pd0 = Fin wo -> 0 < wi -> 0 < wo ->
  identifyArbitrageOpp fromFp fromFpDecimals fp marketPrices poolState poolTokens
  = (a <- fp NaN ;;
     Ok [ {| poolId := ps_id poolState; assetInIndex := 1; assetOutIndex := 0;
             amount := a; userData := "0x"%string |} ]).
Proof.
  intros Hpp Hsp Hmiss Hwi Hwo Pwi Pwo.
  assert (Hd0 : desired_price marketPrices pd0 = NaN).
  { unfold desired_price. destruct Hmiss as [H | H]; rewrite H; [reflexivity |].
    destruct (market_lookup marketPrices (tokenIn pd0)); reflexivity. }
  assert (Hd1 : desired_price marketPrices (swap_direction pd0) = NaN).
  { unfold desired_price. cbn [swap_direction tokenIn tokenOut].
    destruct Hmiss as [H | H]; rewrite H; [| reflexivity].
    destruct (market_lookup marketPrices (tokenOut pd0)); reflexivity. }
  assert (Hn : getAmountInForSpotPriceAfterSwapNoFees (swap_direction pd0) NaN = NaN).
  { unfold getAmountInForSpotPriceAfterSwapNoFees.
    cbn [swap_direction weightIn weightOut balanceIn].
    rewrite Hwi, Hwo, dec_add_fin, dec_div_fin by lra. rewrite dec_sub_fin.
    assert (He : wi / (wo + wi) - 1 <> 0)
      by (pose proof (Rdiv_lt_1_pos wi (wo + wi)); lra).
    replace (dec_div NaN _) with NaN by (destruct (getSpotPrice _); reflexivity).
    unfold dec_pow, math_pow. rewrite (Req_b_false _ 0 He).
    destruct (balanceOut pd0); reflexivity. }
  unfold identifyArbitrageOpp. rewrite Hpp. cbn [bind].
  rewrite Hd0, (js_gt_dec_NaN_left _ Hsp).
  rewrite (poolPairData_mirror _ _ _ _ _ _ Hpp). cbn [bind].
  rewrite Hd1, getAmountInForSpotPrice_unfold, Hn. reflexivity.
Qed.

Lemma identifyArbitrageOpp_missing_price_witness :
  identifyArbitrageOpp fromFp18 fromFpDecimals18 (fun _ => Ok 0%Z) [] pool_1000_2000
    ["A"; "B"]%string
  = (a <- (fun _ : dec => Ok 0%Z) NaN ;;
     Ok [ {| poolId := ps_id pool_1000_2000; assetInIndex := 1; assetOutIndex := 0;
             amount := a; userData := "0x"%string |} ]).
Proof.
  destruct (identifyArbitrageOpp_pool_1000_2000 (fun _ => Ok 0%Z)) as (Hpp & Hsp & _).
  assert (Hw : 0 < IZR 500000000000000000 / powerRZ 10 18) by (rewrite powerRZ_10_18; lra).
  apply (identifyArbitrageOpp_missing_price fromFp18 fromFpDecimals18 (fun _ => Ok 0%Z) []
           pool_1000_2000 ["A"; "B"]%string pair_pool_1000_2000
           (IZR 500000000000000000 / powerRZ 10 18) (IZR 500000000000000000 / powerRZ 10 18));
    [exact Hpp | rewrite Hsp; discriminate | left; reflexivity
    | reflexivity | reflexivity | exact Hw | exact Hw].
Defined.

(** ** The exact-out functions of weightedMath.ts *)

Lemma dec_pow_2 (a : R) : a <> 0 -> dec_pow (Fin a) (Fin 2) = Fin (a * a).
Proof.
  intros Ha. unfold dec_pow.
  rewrite (Req_b_false a 0 Ha), (Req_b_false 2 0) by lra. simpl orb.
  unfold Req_b at 1. destruct (Req_dec_T a 1) as [H1 | H1].
  - subst a. f_equal. ring.
  - rewrite (Req_b_false 2 1) by lra.
    assert (Hi : Int_part 2 = 2%Z) by (apply Int_part_IZR_le; simpl; lra).
    unfold is_int. rewrite Hi, (Req_b_true (IZR 2) 2) by reflexivity.
    simpl. f_equal. ring.
Qed.

Lemma spotExactOut_fin (pd : WeightedPoolPairData) (bi bo wi wo f ao : R) :
  balanceIn pd = Fin bi -> balanceOut pd = Fin bo ->
  weightIn pd = Fin wi -> weightOut pd = Fin wo -> swapFee pd = Fin f ->
  0 < bi -> 0 < bo -> 0 < wi -> f < 1 -> 0 <= ao < bo ->
  _spotPriceAfterSwapTokenInForExactTokenOut (Fin ao) pd
  = Fin (-1 * (Rpower (bi * (bo / (bo - ao))) ((wi + wo) / wi) * wo / (bo * (f - 1) * wi))).
Proof.
  intros Hbi Hbo Hwi Hwo Hf Pbi Pbo Pwi Pf [Pa0 Pa1].
  unfold _spotPriceAfterSwapTokenInForExactTokenOut.
  rewrite Hbi, Hbo, Hwi, Hwo, Hf. unfold ONE, NEGATIVE_ONE.
  repeat rewrite dec_sub_fin. rewrite dec_add_fin.
  rewrite (dec_div_fin bo) by lra. rewrite (dec_div_fin (wi + wo)) by lra.
  rewrite dec_mul_fin.
  assert (Hb : 0 < bi * (bo / (bo - ao))) by (apply Rmult_lt_0_compat; [lra | apply Rdiv_lt_0_compat; lra]).
  rewrite dec_pow_pos by exact Hb.
  repeat rewrite dec_mul_fin.
  rewrite dec_div_fin by (apply Rmult_integral_contrapositive_currified;
                          [apply Rmult_integral_contrapositive_currified |]; lra).
  rewrite dec_mul_fin. reflexivity.
Qed.

(** X8: [getLimitAmountSwap] caps an exact-in trade at 30% of [balanceIn]
    and an exact-out trade at 30% of [balanceOut]; every output amount up
    to the exact-out cap gets a finite input amount from
    [_tokenInForExactTokenOut] and a finite positive spot price from
    [_spotPriceAfterSwapTokenInForExactTokenOut]. *)
Theorem getLimitAmountSwap_exactOut_finite (pd : WeightedPoolPairData) (bi bo wi wo f : R) :
  balanceIn pd = Fin bi -> balanceOut pd = Fin bo ->
  weightIn pd = Fin wi -> weightOut pd = Fin wo -> swapFee pd = Fin f ->
  0 < bi -> 0 < bo -> 0 < wi -> 0 < wo -> 0 <= f < 1 ->
  getLimitAmountSwap pd SwapExactIn = Fin (bi * (3 / 10)) /\
  getLimitAmountSwap pd SwapExactOut = Fin (bo * (3 / 10)) /\
  (forall ao, 0 <= ao <= bo * (3 / 10) ->
     (exists r, _tokenInForExactTokenOut (Fin ao) pd = Fin r) /\
     (exists s, _spotPriceAfterSwapTokenInForExactTokenOut (Fin ao) pd = Fin s /\ 0 < s)).
Proof.
  intros Hbi Hbo Hwi Hwo Hf Pbi Pbo Pwi Pwo [Pf0 Pf1].
  unfold getLimitAmountSwap, MAX_IN_RATIO, MAX_OUT_RATIO. rewrite Hbi, Hbo.
  split; [reflexivity | split; [reflexivity |]].
  intros ao [Pa0 Pa1]. split.
  - rewrite (tokenIn_fin pd bi bo wi wo f ao) by (try assumption; lra).
    eexists. reflexivity.
  - rewrite (spotExactOut_fin pd bi bo wi wo f ao) by (try assumption; lra).
    eexists. split; [reflexivity |].
    pose proof (Rpower_pos (bi * (bo / (bo - ao))) ((wi + wo) / wi)).
    set (P := Rpower (bi * (bo / (bo - ao))) ((wi + wo) / wi)) in *.
    replace (-1 * (P * wo / (bo * (f - 1) * wi))) with (P * wo / (bo * (1 - f) * wi))
      by (field; repeat split; lra).
    apply Rdiv_lt_0_compat; [nra |]. repeat apply Rmult_lt_0_compat; lra.
Qed.

Lemma getLimitAmountSwap_exactOut_finite_witness :
  getLimitAmountSwap (pair_of 1000 1000 (3/10) (7/10) (3/1000)) SwapExactIn = Fin (1000 * (3 / 10)) /\
  getLimitAmountSwap (pair_of 1000 1000 (3/10) (7/10) (3/1000)) SwapExactOut = Fin (1000 * (3 / 10)) /\
  (forall ao, 0 <= ao <= 1000 * (3 / 10) ->
     (exists r, _tokenInForExactTokenOut (Fin ao) (pair_of 1000 1000 (3/10) (7/10) (3/1000)) = Fin r) /\
     (exists s, _spotPriceAfterSwapTokenInForExactTokenOut (Fin ao)
                  (pair_of 1000 1000 (3/10) (7/10) (3/1000)) = Fin s /\ 0 < s)).
Proof.
  apply (getLimitAmountSwap_exactOut_finite _ 1000 1000 (3/10) (7/10) (3/1000));
    try reflexivity; lra.
Defined.

(** X10: [_derivativeSpotPriceAfterSwapTokenInForExactTokenOut] is finite
    and positive for every output amount in [[0, balanceOut)]: the squared
    term [(Ao - Bo)^2] and [wi^2] are positive and the sign of [f - 1] is
    undone by the leading [NEGATIVE_ONE]. *)
Theorem derivativeSpotPriceExactOut_positive (pd : WeightedPoolPairData) (bi bo wi wo f : R) :
  balanceIn pd = Fin bi -> balanceOut pd = Fin bo ->
  weightIn pd = Fin wi -> weightOut pd = Fin wo -> swapFee pd = Fin f ->
  0 < bi -> 0 < bo -> 0 < wi -> 0 < wo -> 0 <= f < 1 ->
  forall ao, 0 <= ao < bo ->
  exists r, _derivativeSpotPriceAfterSwapTokenInForExactTokenOut (Fin ao) pd = Fin r /\ 0 < r.
Proof.
  intros Hbi Hbo Hwi Hwo Hf Pbi Pbo Pwi Pwo [Pf0 Pf1] ao [Pa0 Pa1].
  unfold _derivativeSpotPriceAfterSwapTokenInForExactTokenOut.
  rewrite Hbi, Hbo, Hwi, Hwo, Hf. unfold ONE, NEGATIVE_ONE.
  repeat rewrite dec_sub_fin. rewrite dec_add_fin.
  rewrite (dec_div_fin bo) by lra. rewrite (dec_div_fin wo) by lra.
  rewrite dec_pow_pos by (apply Rdiv_lt_0_compat; lra).
  rewrite (dec_pow_2 (ao - bo)) by lra. rewrite (dec_pow_2 wi) by lra.
  repeat rewrite dec_mul_fin.
  assert (Hq : 0 < (ao - bo) * (ao - bo)) by nra.
  assert (Hw : 0 < wi * wi) by nra.
  rewrite dec_div_fin
    by (apply Rmult_integral_contrapositive_currified;
        [apply Rmult_integral_contrapositive_currified |]; lra).
  rewrite dec_mul_fin. eexists. split; [reflexivity |].
  pose proof (Rpower_pos (bo / (bo - ao)) (wo / wi)).
  set (P := Rpower (bo / (bo - ao)) (wo / wi)) in *.
  set (q := (ao - bo) * (ao - bo)) in *. clearbody P q.
  replace (-1 * (bi * P * (wo * (wi + wo)) / (q * (f - 1) * (wi * wi))))
    with (bi * P * (wo * (wi + wo)) / (q * (1 - f) * (wi * wi)))
    by (field; repeat split; lra).
  apply Rdiv_lt_0_compat.
  - repeat apply Rmult_lt_0_compat; lra.
  - repeat apply Rmult_lt_0_compat; lra.
Qed.

Lemma derivativeSpotPriceExactOut_positive_witness :
  exists r, _derivativeSpotPriceAfterSwapTokenInForExactTokenOut (Fin 100)
              (pair_of 1000 1000 (3/10) (7/10) (3/1000)) = Fin r /\ 0 < r.
Proof.
  apply (derivativeSpotPriceExactOut_positive _ 1000 1000 (3/10) (7/10) (3/1000));
    try reflexivity; lra.
Defined.

(** ** The exact-in spot price and swap on special weights *)

(** X12: [_spotPriceAfterSwapExactTokenInForTokenOut] is NaN for every
    [amountIn >= 0] whenever the exponent [(weightIn + weightOut) / weightOut]
    is not an integer: the method chain raises the negative product
    [Bo * (f - 1) * (Bi / (Ai + Bi - Ai * f))] to that power. *)
Theorem spotPriceExactIn_nan_fractional_exponent (pd : WeightedPoolPairData) (bi bo wi wo f a : R) :
  balanceIn pd = Fin bi -> balanceOut pd = Fin bo ->
  weightIn pd = Fin wi -> weightOut pd = Fin wo -> swapFee pd = Fin f ->
  0 < bi -> 0 < bo -> 0 < wi -> 0 < wo -> 0 <= f < 1 ->
  is_int ((wi + wo) / wo) = false -> 0 <= a ->
  _spotPriceAfterSwapExactTokenInForTokenOut (Fin a) pd = NaN.
Proof.
  intros Hbi Hbo Hwi Hwo Hf Pbi Pbo Pwi Pwo [Pf0 Pf1] Hint Pa.
  unfold _spotPriceAfterSwapExactTokenInForTokenOut.
  rewrite Hbi, Hbo, Hwi, Hwo, Hf. unfold ONE, NEGATIVE_ONE.
  repeat (rewrite dec_add_fin || rewrite dec_sub_fin || rewrite dec_mul_fin).
  assert (Hd : 0 < a + bi - a * f) by nra.
  rewrite (dec_div_fin bi) by lra. rewrite dec_mul_fin.
  rewrite (dec_div_fin (wi + wo)) by lra.
  assert (He : 1 < (wi + wo) / wo).
  { replace ((wi + wo) / wo) with (1 + wi / wo) by (field; lra).
    pose proof (Rdiv_lt_0_compat wi wo Pwi Pwo). lra. }
  set (b := bo * (f - 1) * (bi / (a + bi - a * f))).
  assert (Hb : b < 0).
  { unfold b. pose proof (Rdiv_lt_0_compat bi (a + bi - a * f) Pbi Hd).
    assert (bo * (f - 1) < 0) by nra. nra. }
  clearbody b.
  unfold dec_pow.
  rewrite (Req_b_false b 0), (Req_b_false ((wi + wo) / wo) 0), (Req_b_false b 1),
    (Req_b_false ((wi + wo) / wo) 1) by lra.
  rewrite Hint, (Rlt_b_true b 0) by lra. reflexivity.
Qed.

Lemma spotPriceExactIn_nan_fractional_exponent_witness :
  _spotPriceAfterSwapExactTokenInForTokenOut (Fin 5) (pair_of 1000 1000 (1/4) (1/2) 0) = NaN.
Proof.
  apply (spotPriceExactIn_nan_fractional_exponent _ 1000 1000 (1/4) (1/2) 0 5);
    [reflexivity | reflexivity | reflexivity | reflexivity | reflexivity
    | lra | lra | lra | lra | lra | | lra].
  replace ((1/4 + 1/2) / (1/2)) with (3 / 2) by field. exact is_int_3_2.
Defined.

(** X13: with equal weights the exponent is 2 and
    [_spotPriceAfterSwapExactTokenInForTokenOut] is the finite value
    [-(Ai + Bi - Ai * f)^2 / (Bi * (Bo * (1 - f))^2)], negative for every
    [amountIn >= 0]. *)
Theorem spotPriceExactIn_equal_weights_negative (pd : WeightedPoolPairData) (bi bo w f a : R) :
  balanceIn pd = Fin bi -> balanceOut pd = Fin bo ->
  weightIn pd = Fin w -> weightOut pd = Fin w -> swapFee pd = Fin f ->
  0 < bi -> 0 < bo -> 0 < w -> 0 <= f < 1 -> 0 <= a ->
  exists r, _spotPriceAfterSwapExactTokenInForTokenOut (Fin a) pd = Fin r /\
            r = - ((a + bi - a * f) ^ 2 / (bi * (bo * (1 - f)) ^ 2)) /\ r < 0.
Proof.
  intros Hbi Hbo Hwi Hwo Hf Pbi Pbo Pw [Pf0 Pf1] Pa.
  unfold _spotPriceAfterSwapExactTokenInForTokenOut.
  rewrite Hbi, Hbo, Hwi, Hwo, Hf. unfold ONE, NEGATIVE_ONE.
  repeat (rewrite dec_add_fin || rewrite dec_sub_fin || rewrite dec_mul_fin).
  assert (Hd : 0 < a + bi - a * f) by nra.
  rewrite (dec_div_fin bi) by lra. rewrite dec_mul_fin.
  rewrite (dec_div_fin (w + w)) by lra.
  replace ((w + w) / w) with 2 by (field; lra).
  assert (Hb : bo * (f - 1) * (bi / (a + bi - a * f)) < 0).
  { pose proof (Rdiv_lt_0_compat bi (a + bi - a * f) Pbi Hd).
    assert (bo * (f - 1) < 0) by nra. nra. }
  rewrite dec_pow_2 by lra. rewrite dec_mul_fin.
  rewrite dec_div_fin
    by (apply Rmult_integral_contrapositive_currified; [nra | lra]).
  rewrite dec_mul_fin. eexists. split; [reflexivity |].
  assert (Hr : -1 * (bi * w / (bo * (f - 1) * (bi / (a + bi - a * f)) *
                              (bo * (f - 1) * (bi / (a + bi - a * f))) * w))
               = - ((a + bi - a * f) ^ 2 / (bi * (bo * (1 - f)) ^ 2)))
    by (field; repeat split; lra).
  rewrite Hr. split; [reflexivity |].
  assert (0 < (a + bi - a * f) ^ 2 / (bi * (bo * (1 - f)) ^ 2)).
  { apply Rdiv_lt_0_compat; [apply pow_lt; lra |].
    apply Rmult_lt_0_compat; [lra | apply pow_lt; nra]. }
  lra.
Qed.

Lemma spotPriceExactIn_equal_weights_negative_witness :
  exists r, _spotPriceAfterSwapExactTokenInForTokenOut (Fin 50) (pair_of 1000 1000 (1/2) (1/2) (3/1000)) = Fin r /\
            r = - ((50 + 1000 - 50 * (3/1000)) ^ 2 / (1000 * (1000 * (1 - 3/1000)) ^ 2)) /\ r < 0.
Proof.
  apply (spotPriceExactIn_equal_weights_negative _ 1000 1000 (1/2) (3/1000) 50);
    try reflexivity; lra.
Defined.

(** X14: with equal weights [_exactTokenInForTokenOut] is the
    constant-product amount [Bo * Ai (1 - f) / (Bi + Ai (1 - f))]. *)
Theorem exactTokenInForTokenOut_equal_weights (pd : WeightedPoolPairData) (bi bo w f ai : R) :
  balanceIn pd = Fin bi -> balanceOut pd = Fin bo ->
  weightIn pd = Fin w -> weightOut pd = Fin w -> swapFee pd = Fin f ->
  0 < bi -> 0 < w -> 0 <= f < 1 -> 0 <= ai ->
  _exactTokenInForTokenOut (Fin ai) pd = Fin (bo * (ai * (1 - f)) / (bi + ai * (1 - f))).
Proof.
  intros Hbi Hbo Hwi Hwo Hf Pbi Pw [Pf0 Pf1] Pa.
  assert (Hd : 0 < bi + ai * (1 - f)) by nra.
  rewrite (exactIn_fin pd bi bo w w f ai) by assumption.
  replace (w / w) with 1 by (field; lra).
  rewrite Rpower_1 by (apply Rdiv_lt_0_compat; lra).
  f_equal. field. lra.
Qed.

Lemma exactTokenInForTokenOut_equal_weights_witness :
  _exactTokenInForTokenOut (Fin 50) (pair_of 1000 2000 (1/2) (1/2) (3/1000))
  = Fin (2000 * (50 * (1 - 3/1000)) / (1000 + 50 * (1 - 3/1000))).
Proof.
  apply (exactTokenInForTokenOut_equal_weights _ 1000 2000 (1/2) (3/1000) 50);
    try reflexivity; lra.
Defined.

(** ** The exact-out spot price at zero *)

(** X16: at a zero output amount [_spotPriceAfterSwapTokenInForExactTokenOut]
    is not invariant under a common scaling of the two balances: scaling
    both by [k] multiplies it by [k^(weightOut / weightIn)]. *)
Theorem spotPriceExactOut_zero_amount_scaling (bi bo wi wo f k : R) :
  0 < bi -> 0 < bo -> 0 < wi -> 0 < wo -> f < 1 -> 0 < k ->
  exists r,
    _spotPriceAfterSwapTokenInForExactTokenOut (Fin 0) (pair_of bi bo wi wo f) = Fin r /\
    _spotPriceAfterSwapTokenInForExactTokenOut (Fin 0) (pair_of (k * bi) (k * bo) wi wo f)
      = Fin (Rpower k (wo / wi) * r).
Proof.
  intros Pbi Pbo Pwi Pwo Pf Pk.
  rewrite (spotExactOut_fin (pair_of bi bo wi wo f) bi bo wi wo f 0)
    by (try reflexivity; lra).
  rewrite (spotExactOut_fin (pair_of (k * bi) (k * bo) wi wo f) (k * bi) (k * bo) wi wo f 0)
    by (try reflexivity; pose proof (Rmult_lt_0_compat k bi Pk Pbi);
        pose proof (Rmult_lt_0_compat k bo Pk Pbo); lra).
  eexists. split; [reflexivity |]. f_equal.
  replace (k * bo / (k * bo - 0)) with 1 by (field; lra).
  replace (bo / (bo - 0)) with 1 by (field; lra).
  rewrite !Rmult_1_r.
  rewrite <- (Rpower_mult_distr k bi) by lra.
  replace ((wi + wo) / wi) with (wo / wi + 1) by (field; lra).
  rewrite (Rpower_plus (wo / wi) 1 k), (Rpower_1 k) by lra.
  field. repeat split; lra.
Qed.

Lemma spotPriceExactOut_zero_amount_scaling_witness :
  exists r,
    _spotPriceAfterSwapTokenInForExactTokenOut (Fin 0) (pair_of 1000 1000 (1/2) (1/2) 0) = Fin r /\
    _spotPriceAfterSwapTokenInForExactTokenOut (Fin 0) (pair_of (2 * 1000) (2 * 1000) (1/2) (1/2) 0)
      = Fin (Rpower 2 ((1/2) / (1/2)) * r).
Proof. apply spotPriceExactOut_zero_amount_scaling; lra. Defined.
